(** * Open-path TSP route optimiser: [scripts/optimize_routes.py]

    A shallow embedding of the solver core of [optimize_routes.py]
    ([solve_tsp_ortools], [nearest_neighbor_tsp], [main]) and the proofs of
    the properties its specification states about it.

    Conventions of the embedding.
    - A Python exception (IndexError, KeyError) is the [None] of the option
      monad; every list subscript of the source is a fallible lookup here.
    - Numbers.  The functions are embedded twice.  The first embedding
      ([num]) is the integer fragment: distances are Python integers, or the
      float [inf] that the source itself uses as the initial "best" value
      and that [json.loads] accepts as [Infinity]; integer arithmetic and
      the comparison of an integer with [inf] are exact in Python.  The
      second ([Py.number], module [Py]) has Python's integers and all of
      its floats (IEEE 754 binary64, by the Standard Library's [SpecFloat]),
      with the rounding and overflow of float addition and the
      [OverflowError] of an integer too large to convert; it embeds
      [nearest_neighbor_tsp], and agrees with the first embedding on every
      matrix of integers and [inf] ([py_nearest_neighbor_tsp_refines]).
      Statements about integer matrices are made on the first embedding,
      what the code does on floats is computed on the second.
    - The OR-Tools engine is an external library: it is a parameter
      [engine], mapping the augmented matrix to the closed tour it found
      ([Some full_tour]) or to no solution ([None]). *)

From stdpp Require Import list strings.
From Stdlib Require Floats.SpecFloat.

(** ** Numbers: Python integers and [inf] *)

Inductive num : Type :=
| Fin (z : Z)    (* a Python int *)
| Inf.           (* float("inf") *)

(** [a < b] *)
Definition num_lt (a b : num) : bool :=
  match a, b with
  | Fin x, Fin y => (x <? y)%Z
  | Fin _, Inf => true
  | Inf, _ => false
  end.

(** [a + b], exact on two integers.  With [inf] the sum is [inf], as in
    Python for every integer that converts to a float; for the others
    Python raises OverflowError ([Py.add]), which the fallback never meets:
    it adds integers only ([py_walk_loop_refines]). *)
Definition num_add (a b : num) : num :=
  match a, b with
  | Fin x, Fin y => Fin (x + y)
  | _, _ => Inf
  end.

Definition is_fin (a : num) : Prop :=
  match a with Fin _ => True | Inf => False end.

Definition nonneg (a : num) : Prop :=
  match a with Fin z => (0 ≤ z)%Z | Inf => True end.

(** ** Matrices and subscripts *)

Abbreviation matrix := (list (list num)).

(** [distance_matrix[i][j]] for indices that are never negative. *)
Definition entry (dm : matrix) (i j : nat) : option num :=
  row ← dm !! i; row !! j.

(** [l[i] = x]: Python raises IndexError out of range. *)
Definition set_item {A} (l : list A) (i : nat) (x : A) : option (list A) :=
  if decide (i < length l) then Some (<[i:=x]> l) else None.

(** [range(n)] *)
Definition range (n : nat) : list nat := seq 0 n.

(** [for j in js: s = body(s, j)], an exception in the body ends the loop. *)
Fixpoint for_each {S : Type} (body : S → nat → option S) (js : list nat) (s : S)
  : option S :=
  match js with
  | [] => Some s
  | j :: js' => s' ← body s j; for_each body js' s'
  end.

(** Shapes of the input that the specification calls valid. *)
Definition square (dm : matrix) : Prop :=
  Forall (λ row, length row = length dm) dm.

(** Every entry is a Python integer. *)
Definition finite_matrix (dm : matrix) : Prop :=
  Forall (Forall is_fin) dm.

Definition nonneg_matrix (dm : matrix) : Prop :=
  Forall (Forall nonneg) dm.

(** ** [nearest_neighbor_tsp] *)

(** Lines 128-131: one iteration of the scan for the nearest unvisited node.
    The state is [(best_next, best_dist)]; the sentinel [best_next = -1] of
    the source is [None].  Python's [and] does not evaluate
    [distance_matrix[current][j]] when [visited[j]] holds. *)
Definition scan_body (dm : matrix) (visited : list bool) (current : nat)
    (st : option nat * num) (j : nat) : option (option nat * num) :=
  v ← visited !! j;
  if (v : bool) then Some st
  else
    d ← entry dm current j;
    if num_lt d st.2 then Some (Some j, d) else Some st.

(** Lines 126-131. *)
Definition nearest_unvisited (dm : matrix) (visited : list bool)
    (current n : nat) : option (option nat * num) :=
  for_each (scan_body dm visited current) (range n) (None, Inf).

(** The variables of one start's greedy construction (lines 119-122).
    [broke] records whether the [break] of line 133 was executed; the source
    has no such variable, it is kept to state reachability of that line. *)
Record walk : Type := Walk {
  order : list nat;
  visited : list bool;
  total_distance : num;
  broke : bool
}.

(** Lines 124-136: [for _ in range(n - 1)], [steps] iterations left. *)
Fixpoint walk_loop (dm : matrix) (n steps : nat) (w : walk) : option walk :=
  match steps with
  | 0 => Some w
  | S steps' =>
      current ← last (order w);
      '(best_next, best_dist) ← nearest_unvisited dm (visited w) current n;
      match best_next with
      | None => Some (Walk (order w) (visited w) (total_distance w) true)
      | Some j =>
          visited' ← set_item (visited w) j true;
          walk_loop dm n steps'
            (Walk (order w ++ [j]) visited'
                  (num_add (total_distance w) best_dist) false)
      end
  end.

(** Lines 119-136: the greedy path from [start]. *)
Definition greedy_path (dm : matrix) (n start : nat) : option walk :=
  visited0 ← set_item (replicate n false) start true;
  walk_loop dm n (n - 1) (Walk [start] visited0 (Fin 0) false).

(** Lines 118-140: the body of [for start in range(n)]; the state is
    [(best_order, best_total)]. *)
Definition try_start (dm : matrix) (n : nat)
    (best : option (list nat) * num) (start : nat)
  : option (option (list nat) * num) :=
  w ← greedy_path dm n start;
  if num_lt (total_distance w) best.2
  then Some (Some (order w), total_distance w)
  else Some best.

(** Lines 105-142.  The result is the pair [(best_order, best_total)];
    [best_order] is an [option] because the source initialises it to
    Python's [None]. *)
Definition nearest_neighbor_tsp (dm : matrix)
  : option (option (list nat) * num) :=
  let n := length dm in
  if decide (n ≤ 1) then Some (Some (range n), Fin 0)
  else for_each (try_start dm n) (range n) (None, Inf).

(** ** [solve_tsp_ortools] *)

(** Lines 55-60: the augmented matrix with the dummy node at index [n]. *)
Definition aug_matrix (dm : matrix) : matrix :=
  ((λ row, row ++ [Fin 0]) <$> dm) ++ [replicate (length dm + 1) (Fin 0)].

(** Line 97: [total_distance += distance_matrix[order[i]][order[i + 1]]]. *)
Definition cost_step (dm : matrix) (order : list nat) (total : num) (i : nat)
  : option num :=
  a ← order !! i;
  b ← order !! (i + 1);
  d ← entry dm a b;
  Some (num_add total d).

(** Lines 95-97: the cost of [order] recomputed on the original matrix.
    [range(len(order) - 1)] is empty when [order] is. *)
Definition tour_cost (dm : matrix) (order : list nat) : option num :=
  for_each (cost_step dm order) (range (length order - 1)) (Fin 0).

(** Lines 41-102. *)
Definition solve_tsp_ortools (engine : matrix → option (list nat))
    (dm : matrix) : option (option (list nat) * num) :=
  let n := length dm in
  if decide (n ≤ 1) then Some (Some (range n), Fin 0)
  else if decide (n = 2) then d ← entry dm 0 1; Some (Some [0; 1], d)
  else
    match engine (aug_matrix dm) with
    | Some full_tour =>
        let order := filter (λ node, node ≠ n) full_tour in
        total ← tour_cost dm order;
        Some (Some order, total)
    | None => nearest_neighbor_tsp dm
    end.

(** ** [main] *)

(** The decoded JSON input.  A key that may be absent is an [option]. *)
Module Cluster.
Record t : Type := Make {
  clusterId : option Z;
  distanceMatrix : option matrix;
  voterIds : option (list string)
}.
End Cluster.

Module Route.
Record t : Type := Make {
  clusterId : Z;
  orderedIndices : option (list nat);
  totalDistance : num
}.
End Route.

Record request : Type := Request { clusters : option (list Cluster.t) }.

Record response : Type := Response { routes : list Route.t; solver : string }.

(** Lines 154-157: the backend chosen by [HAS_ORTOOLS]. *)
Definition solve (HAS_ORTOOLS : bool) (engine : matrix → option (list nat))
    (dm : matrix) : option (option (list nat) * num) :=
  if HAS_ORTOOLS then solve_tsp_ortools engine dm
  else nearest_neighbor_tsp dm.

(** Lines 152-163: the body of [for cluster in clusters], producing the
    dictionary appended to [routes]. *)
Definition solve_cluster (HAS_ORTOOLS : bool)
    (engine : matrix → option (list nat)) (cluster : Cluster.t)
  : option Route.t :=
  dm ← Cluster.distanceMatrix cluster;
  '(order, total_dist) ← solve HAS_ORTOOLS engine dm;
  cid ← Cluster.clusterId cluster;
  Some (Route.Make cid order total_dist).

(** Lines 145-170.  [None] is an uncaught exception: a traceback on stderr
    and a non-zero exit status, nothing written to stdout. *)
Definition main (HAS_ORTOOLS : bool) (engine : matrix → option (list nat))
    (data : request) : option response :=
  let cs := default [] (clusters data) in
  rs ← mapM (solve_cluster HAS_ORTOOLS engine) cs;
  Some (Response rs (if HAS_ORTOOLS then "ortools" else "nearest_neighbor")%string).

(** ** Reference notions used by the statements *)

(** The sum of [dm[o[k]][o[k+1]]] over the consecutive pairs of [o]. *)
Fixpoint path_cost (dm : matrix) (o : list nat) : option num :=
  match o with
  | a :: tl =>
      match tl with
      | b :: _ => d ← entry dm a b; r ← path_cost dm tl; Some (num_add d r)
      | [] => Some (Fin 0)
      end
  | [] => Some (Fin 0)
  end.

(** What the engine is trusted for: the tour it returns visits every node
    of the augmented graph exactly once. *)
Definition engine_sound (engine : matrix → option (list nat)) : Prop :=
  ∀ aug full_tour,
    engine aug = Some full_tour → full_tour ≡ₚ range (length aug).

(** An engine that finds no solution, and one that returns the tour
    [n, n-1, ..., 0]. *)
Definition no_engine : matrix → option (list nat) := λ _, None.
Definition rev_engine : matrix → option (list nat) :=
  λ aug, Some (reverse (range (length aug))).


(** The two minimum searches of [nearest_neighbor_tsp] (over the unvisited
    nodes, over the starts) have one shape: a candidate replaces the best
    one so far when its cost is strictly smaller.  [key j] is the candidate
    of iteration [j]: an exception, nothing (the iteration is skipped), or a
    payload with its cost. *)
Definition argmin_step {P : Type} (key : nat → option (option (P * num)))
    (st : option P * num) (j : nat) : option (option P * num) :=
  c ← key j;
  match c with
  | None => Some st
  | Some (p, d) => if num_lt d st.2 then Some (Some p, d) else Some st
  end.

Definition scan_key (dm : matrix) (visited : list bool) (current : nat)
    (j : nat) : option (option (nat * num)) :=
  v ← visited !! j;
  if (v : bool) then Some None
  else d ← entry dm current j; Some (Some (j, d)).

Definition start_key (dm : matrix) (n : nat) (start : nat)
  : option (option (list nat * num)) :=
  w ← greedy_path dm n start; Some (Some (order w, total_distance w)).

(** [j], at distance [d] from [cur], is the nearest node outside [seen],
    and the one of lowest index among the nearest. *)
Definition nearest_choice (dm : matrix) (n : nat) (seen : list nat)
    (cur j : nat) (d : num) : Prop :=
  j < n ∧ (j ∉ seen) ∧ entry dm cur j = Some d ∧
  ∀ k dk, k < n → k ∉ seen → entry dm cur k = Some dk →
          num_lt dk d = false ∧ (k < j → num_lt d dk = true).

(** The paths that start at [s] and always move to the nearest unvisited
    node, ties going to the lowest index. *)
Inductive greedy_from (dm : matrix) (n s : nat) : list nat → Prop :=
| greedy_start : greedy_from dm n s [s]
| greedy_step o cur j d :
    greedy_from dm n s o →
    last o = Some cur →
    nearest_choice dm n o cur j d →
    greedy_from dm n s (o ++ [j]).

(** The loop invariant of lines 124-136. *)
Record walk_inv (dm : matrix) (n s : nat) (w : walk) : Prop := WalkInv {
  inv_length : length (visited w) = n;
  inv_visited : ∀ j, visited w !! j = Some true ↔ j ∈ order w;
  inv_nodup : NoDup (order w);
  inv_greedy : greedy_from dm n s (order w);
  inv_cost : path_cost dm (order w) = Some (total_distance w);
  inv_fin : is_fin (total_distance w)
}.

(** ** Sample inputs *)

(** The four-node scenario of the specification. *)
Definition dm4 : matrix :=
  [[Fin 0; Fin 10; Fin 15; Fin 20]; [Fin 10; Fin 0; Fin 35; Fin 25];
   [Fin 15; Fin 35; Fin 0; Fin 30]; [Fin 20; Fin 25; Fin 30; Fin 0]].

(** The same distances with another diagonal. *)
Definition dm4_diag : matrix :=
  [[Fin 9; Fin 10; Fin 15; Fin 20]; [Fin 10; Inf; Fin 35; Fin 25];
   [Fin 15; Fin 35; Fin (-4); Fin 30]; [Fin 20; Fin 25; Fin 30; Fin 1]].

(** Two nodes, a one-way street. *)
Definition dm2_oneway : matrix := [[Fin 0; Fin 7]; [Fin 3; Fin 0]].




Definition dm3 : matrix :=
  [[Fin 0; Fin 2; Fin 9]; [Fin 2; Fin 0; Fin 4]; [Fin 9; Fin 4; Fin 0]].

Definition dm5 : matrix :=
  [[Fin 0; Fin 3; Fin 8; Fin 6; Fin 5]; [Fin 3; Fin 0; Fin 4; Fin 7; Fin 9];
   [Fin 8; Fin 4; Fin 0; Fin 2; Fin 6]; [Fin 6; Fin 7; Fin 2; Fin 0; Fin 1];
   [Fin 5; Fin 9; Fin 6; Fin 1; Fin 0]].

(** A batch of two clusters, of sizes 3 and 5. *)
Definition batch_3_5 : request :=
  Request (Some [Cluster.Make (Some 11%Z) (Some dm3) None;
                 Cluster.Make (Some 7%Z) (Some dm5) (Some ["a"; "b"; "c"; "d"; "e"]%string)]).

(** A cluster is well formed when both keys read by [main] are present and
    the matrix is square. *)
Definition well_formed (c : Cluster.t) : Prop :=
  is_Some (Cluster.clusterId c) ∧
  ∃ dm, Cluster.distanceMatrix c = Some dm ∧ square dm.

(** ** Notions used by the further properties *)

(** The cost of the closed tour [tour] on [m]: the arcs between consecutive
    nodes and the arc from the last node back to the first, each priced as
    [distance_callback] does (lines 65-68), by [m[from_node][to_node]]. *)
Definition closed_tour_cost (m : matrix) (tour : list nat) : option num :=
  match tour with
  | [] => Some (Fin 0)
  | first :: _ => path_cost m (tour ++ [first])
  end.



(** A cluster without its [voterIds]. *)
Definition drop_voterIds (c : Cluster.t) : Cluster.t :=
  Cluster.Make (Cluster.clusterId c) (Cluster.distanceMatrix c) None.

(** Two nodes with no finite distance between them. *)
Definition dm2_unreachable : matrix := [[Fin 0; Inf]; [Inf; Fin 0]].

#[global] Instance num_eq_dec : EqDecision num.
Proof. solve_decision. Defined.

(** ** Python's numbers, floats included *)

Module Py.

(** A Python [int] or a Python [float] (binary64: signed zeros, finite
    numbers [(-1)^s * m * 2^e], infinities, nan). *)
Inductive number : Type :=
| Int (z : Z)
| Float (f : SpecFloat.spec_float).

Definition prec : Z := 53.
Definition emax : Z := 1024.

(** [float("inf")] *)
Definition inf : SpecFloat.spec_float := SpecFloat.S754_infinity false.

(** [float(z)] as Python converts an [int] operand: rounded to the nearest
    double, ties to even; OverflowError when that is out of range. *)
Definition float_of_int (z : Z) : option SpecFloat.spec_float :=
  match SpecFloat.binary_normalize prec emax z 0 false with
  | SpecFloat.S754_infinity _ => None
  | f => Some f
  end.

(** [a + b]: two ints add exactly, two floats as IEEE 754 says, and an int
    met by a float is converted first. *)
Definition add (a b : number) : option number :=
  match a, b with
  | Int x, Int y => Some (Int (x + y))
  | Float f, Float g => Some (Float (SpecFloat.SFadd prec emax f g))
  | Int x, Float g =>
      f ← float_of_int x; Some (Float (SpecFloat.SFadd prec emax f g))
  | Float f, Int y =>
      g ← float_of_int y; Some (Float (SpecFloat.SFadd prec emax f g))
  end.

(** The comparison of the integer [x] with the exact value
    [(-1)^s * m * 2^e]. *)
Definition compare_int_float (x : Z) (s : bool) (m : positive) (e : Z)
  : comparison :=
  let v := if s then Z.neg m else Z.pos m in
  match e with
  | Z0 => (x ?= v)%Z
  | Zpos _ => (x ?= v * 2 ^ e)%Z
  | Zneg p => (x * 2 ^ Z.pos p ?= v)%Z
  end.

(** [a < b]: Python compares an int with a float by their exact values,
    without rounding the int; nothing is below or above nan. *)
Definition lt (a b : number) : bool :=
  match a, b with
  | Int x, Int y => (x <? y)%Z
  | Float f, Float g => SpecFloat.SFltb f g
  | Int x, Float g =>
      match g with
      | SpecFloat.S754_nan => false
      | SpecFloat.S754_infinity s => negb s
      | SpecFloat.S754_zero _ => (x <? 0)%Z
      | SpecFloat.S754_finite s m e =>
          match compare_int_float x s m e with Lt => true | _ => false end
      end
  | Float f, Int y =>
      match f with
      | SpecFloat.S754_nan => false
      | SpecFloat.S754_infinity s => s
      | SpecFloat.S754_zero _ => (0 <? y)%Z
      | SpecFloat.S754_finite s m e =>
          match compare_int_float y s m e with Gt => true | _ => false end
      end
  end.

Abbreviation matrix := (list (list number)).

(** [distance_matrix[i][j]] *)
Definition entry (dm : matrix) (i j : nat) : option number :=
  row ← dm !! i; row !! j.

(** Lines 128-131. *)
Definition scan_body (dm : matrix) (visited : list bool) (current : nat)
    (st : option nat * number) (j : nat) : option (option nat * number) :=
  v ← visited !! j;
  if (v : bool) then Some st
  else
    d ← entry dm current j;
    if lt d st.2 then Some (Some j, d) else Some st.

(** Lines 126-131. *)
Definition nearest_unvisited (dm : matrix) (visited : list bool)
    (current n : nat) : option (option nat * number) :=
  for_each (scan_body dm visited current) (range n) (None, Float inf).

(** The variables of one start's greedy construction (lines 119-122), and
    [broke] for the [break] of line 133, as in the first embedding. *)
Record walk : Type := Walk {
  order : list nat;
  visited : list bool;
  total_distance : number;
  broke : bool
}.

(** Lines 124-136; line 136, [total_distance += best_dist], can raise. *)
Fixpoint walk_loop (dm : matrix) (n steps : nat) (w : walk) : option walk :=
  match steps with
  | 0 => Some w
  | S steps' =>
      current ← last (order w);
      '(best_next, best_dist) ← nearest_unvisited dm (visited w) current n;
      match best_next with
      | None => Some (Walk (order w) (visited w) (total_distance w) true)
      | Some j =>
          visited' ← set_item (visited w) j true;
          total' ← add (total_distance w) best_dist;
          walk_loop dm n steps' (Walk (order w ++ [j]) visited' total' false)
      end
  end.

(** Lines 119-136. *)
Definition greedy_path (dm : matrix) (n start : nat) : option walk :=
  visited0 ← set_item (replicate n false) start true;
  walk_loop dm n (n - 1) (Walk [start] visited0 (Int 0) false).

(** Lines 118-140. *)
Definition try_start (dm : matrix) (n : nat)
    (best : option (list nat) * number) (start : nat)
  : option (option (list nat) * number) :=
  w ← greedy_path dm n start;
  if lt (total_distance w) best.2
  then Some (Some (order w), total_distance w)
  else Some best.

(** Lines 105-142. *)
Definition nearest_neighbor_tsp (dm : matrix)
  : option (option (list nat) * number) :=
  let n := length dm in
  if decide (n ≤ 1) then Some (Some (range n), Int 0)
  else for_each (try_start dm n) (range n) (None, Float inf).

Definition square (dm : matrix) : Prop :=
  Forall (λ row, length row = length dm) dm.


(** The exact value of a finite number, in units of [2^-1074] (the spacing
    of the smallest doubles), so that it is an integer. *)
Definition exact (a : number) : option Z :=
  match a with
  | Int z => Some (z * 2 ^ 1074)%Z
  | Float (SpecFloat.S754_zero _) => Some 0%Z
  | Float (SpecFloat.S754_finite s m e) =>
      Some ((if s then Z.neg m else Z.pos m) * 2 ^ (e + 1074))%Z
  | Float _ => None
  end.


(** A float that is neither an infinity nor nan. *)
Definition finite_float (a : number) : Prop :=
  match a with
  | Float (SpecFloat.S754_zero _) => True
  | Float (SpecFloat.S754_finite _ _ _) => True
  | _ => False
  end.

Definition is_float (a : number) : Prop :=
  match a with Float _ => True | Int _ => False end.

(** The double [1e308], that is [0x1.1ccf385ebc8a0p+1023]. *)
Definition f_1e308 : SpecFloat.spec_float :=
  SpecFloat.S754_finite false 5010420900022432 971.

(** [[0, 1e308, 1e308], [1e308, 0, 1e308], [1e308, 1e308, 0]] *)
Definition dm_1e308 : matrix :=
  [[Int 0; Float f_1e308; Float f_1e308];
   [Float f_1e308; Int 0; Float f_1e308];
   [Float f_1e308; Float f_1e308; Int 0]].

(** The double [0.5], that is [0x1.0p-1]. *)
Definition f_half : SpecFloat.spec_float :=
  SpecFloat.S754_finite false 4503599627370496 (-53).

(** [[0, 0.5, 10**400], [0.5, 0, 10**400], [10**400, 10**400, 0]]: finite
    entries, a float among integers. *)
Definition dm_huge : matrix :=
  [[Int 0; Float f_half; Int (10 ^ 400)];
   [Float f_half; Int 0; Int (10 ^ 400)];
   [Int (10 ^ 400); Int (10 ^ 400); Int 0]].

End Py.

(** The part of the loop invariant of lines 124-136 that does not depend
    on the arithmetic, and the type of the running total: the integer 0 it
    starts from, or a float. *)
Record py_walk_inv (n : nat) (w : Py.walk) : Prop := PyWalkInv {
  py_inv_length : length (Py.visited w) = n;
  py_inv_visited : ∀ j, Py.visited w !! j = Some true ↔ j ∈ Py.order w;
  py_inv_nodup : NoDup (Py.order w);
  py_inv_last : is_Some (last (Py.order w));
  py_inv_total :
    Py.total_distance w = Py.Int 0 ∨ Py.is_float (Py.total_distance w)
}.

(** The numbers of the first embedding among Python's. *)
Definition to_py (a : num) : Py.number :=
  match a with
  | Fin z => Py.Int z
  | Inf => Py.Float Py.inf
  end.

Definition to_py_matrix (dm : matrix) : Py.matrix :=
  (λ row : list num, to_py <$> row) <$> dm.

Definition to_py_walk (w : walk) : Py.walk :=
  Py.Walk (order w) (visited w) (to_py (total_distance w)) (broke w).



(** * Proofs *)

(** ** Arithmetic on [num] *)

Ltac num_solve :=
  repeat match goal with
         | x : num |- _ => destruct x
         end;
  simpl in *;
  repeat match goal with
         | H : (_ <? _)%Z = true |- _ => apply Z.ltb_lt in H
         | H : (_ <? _)%Z = false |- _ => apply Z.ltb_ge in H
         | |- (_ <? _)%Z = true => apply Z.ltb_lt
         | |- (_ <? _)%Z = false => apply Z.ltb_ge
         end;
  try done; try (f_equal; lia); try lia.

Lemma num_lt_irrefl a : num_lt a a = false.
Proof. num_solve. Qed.

Lemma num_lt_is_fin a b : num_lt a b = true → is_fin a.
Proof. num_solve. Qed.

Lemma num_lt_Inf a : num_lt a Inf = false → a = Inf.
Proof. num_solve. Qed.

Lemma num_lt_trans_ge a b c :
  num_lt a b = false → num_lt c b = true → num_lt a c = false.
Proof. intros. num_solve. Qed.

Lemma num_lt_below a b c :
  num_lt a b = false → num_lt c b = true → num_lt c a = true.
Proof. intros. num_solve. Qed.

Lemma num_add_0_r a : num_add a (Fin 0) = a.
Proof. num_solve. Qed.

Lemma num_add_is_fin a b : is_fin a → is_fin b → is_fin (num_add a b).
Proof. num_solve. Qed.

(** ** The [for] loop *)

Lemma for_each_app {S} (body : S → nat → option S) js1 js2 s :
  for_each body (js1 ++ js2) s = s' ← for_each body js1 s; for_each body js2 s'.
Proof.
  revert s. induction js1 as [|j js1 IH]; intros s; simpl; [done|].
  destruct (body s j) as [s'|]; simpl; [apply IH | done].
Qed.

Lemma for_each_snoc {S} (body : S → nat → option S) js j s :
  for_each body (js ++ [j]) s = s' ← for_each body js s; body s' j.
Proof.
  rewrite for_each_app. destruct (for_each body js s) as [s'|]; simpl; [|done].
  by destruct (body s' j).
Qed.

Lemma range_S n : range (S n) = range n ++ [n].
Proof. unfold range. by rewrite seq_S. Qed.

Lemma for_each_ext {S} (body1 body2 : S → nat → option S) js s :
  (∀ j s', j ∈ js → body1 s' j = body2 s' j) →
  for_each body1 js s = for_each body2 js s.
Proof.
  revert s. induction js as [|j js IH]; intros s Hext; simpl; [done|].
  rewrite Hext by left. destruct (body2 s j) as [s'|]; simpl; [|done].
  apply IH. intros k s'' Hk. apply Hext. by right.
Qed.

Lemma for_each_total {S} (body : S → nat → option S) js s :
  (∀ j s', j ∈ js → is_Some (body s' j)) → is_Some (for_each body js s).
Proof.
  revert s. induction js as [|j js IH]; intros s Hok; simpl; [by eexists|].
  destruct (Hok j s) as [s' Hs']; [left|]. rewrite Hs'. simpl.
  apply IH. intros k s'' Hk. apply Hok. by right.
Qed.


(** ** Minimum search with ties going to the lowest index *)

Lemma scan_body_argmin dm vis cur st j :
  scan_body dm vis cur st j = argmin_step (scan_key dm vis cur) st j.
Proof.
  unfold scan_body, argmin_step, scan_key.
  destruct (vis !! j) as [[]|]; simpl; [done| |done].
  by destruct (entry dm cur j).
Qed.

Lemma try_start_argmin dm n st s :
  try_start dm n st s = argmin_step (start_key dm n) st s.
Proof.
  unfold try_start, argmin_step, start_key.
  by destruct (greedy_path dm n s).
Qed.

Section argmin.
Context {P : Type} (key : nat → option (option (P * num))).

Lemma argmin_spec n b bd :
  for_each (argmin_step key) (range n) (None, Inf) = Some (b, bd) →
  (∀ k p d, k < n → key k = Some (Some (p, d)) → num_lt d bd = false) ∧
  match b with
  | None => bd = Inf
  | Some p =>
      ∃ j, j < n ∧ key j = Some (Some (p, bd)) ∧ is_fin bd ∧
           ∀ k p' d, k < j → key k = Some (Some (p', d)) →
                     num_lt bd d = true
  end.
Proof.
  revert b bd. induction n as [|n IH]; intros b bd.
  { simpl. intros [= <- <-]. split; [lia|done]. }
  rewrite range_S, for_each_snoc.
  destruct (for_each _ (range n) _) as [[b' bd']|]; simpl; [|done].
  destruct (IH b' bd' eq_refl) as [Hmin Hbest].
  unfold argmin_step.
  destruct (key n) as [[[p d]|]|] eqn:Hkey; simpl; [| |done].
  - destruct (num_lt d bd') eqn:Hlt; intros [= <- <-].
    + split.
      * intros k p' d' Hk Hk'. destruct (decide (k = n)) as [->|].
        { rewrite Hkey in Hk'. injection Hk' as <- <-. apply num_lt_irrefl. }
        eapply num_lt_trans_ge; [|exact Hlt]. eapply Hmin; [|done]. lia.
      * exists n. split_and!; [lia|done|by eapply num_lt_is_fin|].
        intros k p' d' Hk Hk'. eapply num_lt_below; [|exact Hlt]. eauto.
    + split.
      * intros k p' d' Hk Hk'. destruct (decide (k = n)) as [->|].
        { rewrite Hkey in Hk'. by injection Hk' as <- <-. }
        eapply Hmin; [|done]. lia.
      * destruct b'; [|done].
        destruct Hbest as (j & ? & ? & ? & ?). exists j. split_and!; auto.
  - intros [= <- <-]. split.
    + intros k p' d' Hk Hk'. destruct (decide (k = n)) as [->|].
      { by rewrite Hkey in Hk'. }
      eapply Hmin; [|done]. lia.
    + destruct b'; [|done].
      destruct Hbest as (j & ? & ? & ? & ?). exists j. split_and!; auto.
Qed.

Lemma argmin_total n :
  (∀ k, k < n → is_Some (key k)) →
  is_Some (for_each (argmin_step key) (range n) (None, Inf)).
Proof.
  intros Hok. apply for_each_total. intros j st Hj.
  apply elem_of_seq in Hj. destruct (Hok j) as [c Hc]; [lia|].
  unfold argmin_step. rewrite Hc. simpl.
  destruct c as [[p d]|]; [|by eexists]. destruct (num_lt d st.2); by eexists.
Qed.


End argmin.

(** ** Subscripts *)

Lemma square_entry dm i j :
  square dm → i < length dm → j < length dm → is_Some (entry dm i j).
Proof.
  intros Hsq Hi Hj. unfold entry.
  destruct (lookup_lt_is_Some_2 dm i Hi) as [row Hrow]. rewrite Hrow. simpl.
  apply lookup_lt_is_Some_2.
  unfold square in Hsq. rewrite Forall_lookup in Hsq.
  by rewrite (Hsq i row Hrow).
Qed.

Lemma finite_entry dm i j d :
  finite_matrix dm → entry dm i j = Some d → is_fin d.
Proof.
  unfold entry, finite_matrix. intros Hfin Hd.
  destruct (dm !! i) as [row|] eqn:Hrow; simpl in Hd; [|done].
  rewrite Forall_lookup in Hfin. specialize (Hfin i row Hrow).
  rewrite Forall_lookup in Hfin. eauto.
Qed.

Lemma set_item_Some {A} (l : list A) i x :
  i < length l → set_item l i x = Some (<[i:=x]> l).
Proof. intros. unfold set_item. by rewrite decide_True. Qed.

Lemma set_item_inv {A} (l l' : list A) i x :
  set_item l i x = Some l' → i < length l ∧ l' = <[i:=x]> l.
Proof. unfold set_item. case_decide; naive_solver. Qed.

(** ** The nearest unvisited node *)

Lemma scan_key_Some dm vis cur k p d :
  scan_key dm vis cur k = Some (Some (p, d)) ↔
  vis !! k = Some false ∧ entry dm cur k = Some d ∧ p = k.
Proof.
  unfold scan_key. destruct (vis !! k) as [[]|]; simpl.
  - split; [done|]. by intros [? _].
  - destruct (entry dm cur k) as [d'|]; simpl.
    + split; [by intros [= <- <-]|]. by intros (_ & [= ->] & ->).
    + split; [done|]. by intros (_ & ? & _).
  - split; [done|]. by intros [? _].
Qed.

Lemma nearest_unvisited_spec dm vis cur n b bd :
  nearest_unvisited dm vis cur n = Some (b, bd) →
  (∀ k d, k < n → vis !! k = Some false → entry dm cur k = Some d →
          num_lt d bd = false) ∧
  match b with
  | None => bd = Inf
  | Some j =>
      j < n ∧ vis !! j = Some false ∧ entry dm cur j = Some bd ∧ is_fin bd ∧
      ∀ k d, k < j → vis !! k = Some false → entry dm cur k = Some d →
             num_lt bd d = true
  end.
Proof.
  unfold nearest_unvisited.
  rewrite (for_each_ext _ (argmin_step (scan_key dm vis cur)))
    by (intros; apply scan_body_argmin).
  intros Hrun. apply argmin_spec in Hrun as [Hmin Hbest]. split.
  - intros k d Hk Hv Hd. apply (Hmin k k d Hk). by apply scan_key_Some.
  - destruct b as [j|]; [|done].
    destruct Hbest as (j' & Hj' & Hkey & Hfin & Hlow).
    apply scan_key_Some in Hkey as (Hv & Hd & ->).
    split_and!; try done.
    intros k d Hk Hkv Hkd. apply (Hlow k k d Hk). by apply scan_key_Some.
Qed.

Lemma nearest_unvisited_total dm vis cur n :
  length vis = n →
  (∀ k, k < n → vis !! k = Some false → is_Some (entry dm cur k)) →
  is_Some (nearest_unvisited dm vis cur n).
Proof.
  intros Hlen Hrow. unfold nearest_unvisited.
  rewrite (for_each_ext _ (argmin_step (scan_key dm vis cur)))
    by (intros; apply scan_body_argmin).
  apply argmin_total. intros k Hk. unfold scan_key.
  destruct (lookup_lt_is_Some_2 vis k) as [v Hv]; [lia|]. rewrite Hv. simpl.
  destruct v; [by eexists|].
  destruct (Hrow k Hk Hv) as [d ->]. by eexists.
Qed.

(** ** The cost of a path *)

Lemma path_cost_cons2 dm a b tl :
  path_cost dm (a :: b :: tl) =
  d ← entry dm a b; r ← path_cost dm (b :: tl); Some (num_add d r).
Proof. done. Qed.

Lemma path_cost_snoc dm o cur j c d :
  last o = Some cur → path_cost dm o = Some c → entry dm cur j = Some d →
  path_cost dm (o ++ [j]) = Some (num_add c d).
Proof.
  revert c. induction o as [|a [|b tl] IH]; intros c Hlast Hc Hd; [done| |].
  - simpl in *. injection Hlast as ->. injection Hc as <-.
    rewrite Hd. simpl. f_equal. clear. num_solve.
  - rewrite path_cost_cons2 in Hc.
    apply bind_Some in Hc as (d0 & Hd0 & Hc).
    apply bind_Some in Hc as (r & Hr & [= <-]).
    change ((a :: b :: tl) ++ [j]) with (a :: b :: (tl ++ [j])).
    rewrite path_cost_cons2, Hd0.
    change (b :: tl ++ [j]) with ((b :: tl) ++ [j]).
    rewrite (IH r); [|done..]. simpl. f_equal. clear. num_solve.
Qed.

(** ** The greedy walk *)

Lemma greedy_from_nonempty dm n s o : greedy_from dm n s o → o ≠ [].
Proof. destruct 1; [done|]. by destruct o. Qed.

Lemma walk_inv_last dm n s w :
  walk_inv dm n s w → ∃ cur, last (order w) = Some cur ∧ cur < n.
Proof.
  intros Hinv. pose proof (greedy_from_nonempty _ _ _ _ (inv_greedy _ _ _ _ Hinv)).
  destruct (last (order w)) as [cur|] eqn:Hlast.
  - exists cur. split; [done|].
    apply last_Some_elem_of in Hlast. apply (inv_visited _ _ _ _ Hinv) in Hlast.
    apply lookup_lt_Some in Hlast. by rewrite (inv_length _ _ _ _ Hinv) in Hlast.
  - by apply last_None in Hlast.
Qed.

Lemma walk_inv_unvisited dm n s w j :
  walk_inv dm n s w → visited w !! j = Some false ↔ j < n ∧ j ∉ order w.
Proof.
  intros Hinv. rewrite <-(inv_visited _ _ _ _ Hinv).
  rewrite <-(inv_length _ _ _ _ Hinv). split.
  - intros Hj. split; [by eapply lookup_lt_Some|]. by rewrite Hj.
  - intros [Hlt Hnot]. destruct (lookup_lt_is_Some_2 _ _ Hlt) as [[] Hv]; done.
Qed.

Lemma walk_inv_start dm n s :
  s < n → walk_inv dm n s (Walk [s] (<[s:=true]> (replicate n false)) (Fin 0) false).
Proof.
  intros Hs. split; simpl; try done.
  - by rewrite length_insert, length_replicate.
  - intros j. rewrite list_elem_of_singleton.
    destruct (decide (j = s)) as [->|Hne].
    + rewrite list_lookup_insert_eq by (by rewrite length_replicate). done.
    + rewrite list_lookup_insert_ne by done. split; [|done].
      intros Hj. by apply lookup_replicate in Hj as [? _].
  - apply NoDup_singleton.
  - constructor.
Qed.

Lemma walk_inv_step dm n s w cur j bd :
  walk_inv dm n s w → last (order w) = Some cur →
  nearest_unvisited dm (visited w) cur n = Some (Some j, bd) →
  set_item (visited w) j true = Some (<[j:=true]> (visited w)) ∧
  walk_inv dm n s
    (Walk (order w ++ [j]) (<[j:=true]> (visited w))
          (num_add (total_distance w) bd) false).
Proof.
  intros Hinv Hlast Hscan.
  apply nearest_unvisited_spec in Hscan as (Hmin & Hj & Hv & Hd & Hfin & Hlow).
  pose proof (inv_length _ _ _ _ Hinv) as Hlen.
  split; [apply set_item_Some; lia|].
  pose proof (proj1 (walk_inv_unvisited _ _ _ _ j Hinv) Hv) as [_ Hnot].
  split; simpl.
  - by rewrite length_insert.
  - intros k. rewrite elem_of_app, list_elem_of_singleton.
    rewrite <-(inv_visited _ _ _ _ Hinv).
    destruct (decide (k = j)) as [->|Hne].
    + rewrite list_lookup_insert_eq by lia. split; [by right|done].
    + rewrite list_lookup_insert_ne by done. split; [by left|by intros [?|?]].
  - apply NoDup_app. split_and!.
    + apply (inv_nodup _ _ _ _ Hinv).
    + intros x Hx ->%list_elem_of_singleton. done.
    + apply NoDup_singleton.
  - eapply greedy_step; [apply (inv_greedy _ _ _ _ Hinv)|done|].
    split_and!; try done.
    intros k dk Hk Hknot Hkd.
    assert (visited w !! k = Some false) as Hkv
      by (by apply (walk_inv_unvisited _ _ _ _ k Hinv)).
    split; [eauto|]. intros Hkj. eauto.
  - eapply path_cost_snoc; [done|apply (inv_cost _ _ _ _ Hinv)|done].
  - apply num_add_is_fin; [apply (inv_fin _ _ _ _ Hinv)|done].
Qed.

Lemma walk_inv_broke dm n s o vis t b b' :
  walk_inv dm n s (Walk o vis t b) → walk_inv dm n s (Walk o vis t b').
Proof. intros []. by split. Qed.

Lemma fresh_index (o : list nat) n :
  length o < n → ∃ k, k < n ∧ k ∉ o.
Proof.
  intros Hlen.
  destruct (decide (Exists (λ k, k ∉ o) (seq 0 n))) as [Hex|Hnex].
  - apply Exists_exists in Hex as (k & Hk & Hnot).
    apply elem_of_seq in Hk. exists k. split; [lia|done].
  - apply not_Exists_Forall in Hnex; [|apply _].
    rewrite Forall_forall in Hnex.
    assert (seq 0 n ⊆+ o) as Hsub.
    { apply NoDup_submseteq; [apply NoDup_seq|]. intros k Hk.
      destruct (decide (k ∈ o)) as [|Hnot]; [done|]. by destruct (Hnex k Hk). }
    apply submseteq_length in Hsub. rewrite length_seq in Hsub. lia.
Qed.

Section walk.
Context (dm : matrix) (n s : nat).

Lemma walk_loop_total steps w :
  (∀ i j, i < n → j < n → is_Some (entry dm i j)) →
  walk_inv dm n s w → is_Some (walk_loop dm n steps w).
Proof.
  intros Hrows. revert w. induction steps as [|steps IH]; intros w Hinv.
  { by eexists. }
  destruct (walk_inv_last _ _ _ _ Hinv) as (cur & Hlast & Hcur).
  simpl. rewrite Hlast. simpl.
  destruct (nearest_unvisited_total dm (visited w) cur n) as [[b bd] Hscan].
  { apply (inv_length _ _ _ _ Hinv). }
  { intros k Hk _. by apply Hrows. }
  rewrite Hscan. simpl. destruct b as [j|]; [|by eexists].
  destruct (walk_inv_step _ _ _ _ _ _ _ Hinv Hlast Hscan) as [-> Hinv'].
  simpl. by apply IH.
Qed.

Lemma walk_loop_inv steps w w' :
  walk_inv dm n s w → walk_loop dm n steps w = Some w' →
  walk_inv dm n s w' ∧
  length (order w') ≤ length (order w) + steps ∧
  (broke w = false → broke w' = false →
   length (order w') = length (order w) + steps).
Proof.
  revert w. induction steps as [|steps IH]; intros w Hinv Hrun.
  { injection Hrun as <-. split_and!; [done|lia|lia]. }
  destruct (walk_inv_last _ _ _ _ Hinv) as (cur & Hlast & Hcur).
  simpl in Hrun. rewrite Hlast in Hrun. simpl in Hrun.
  destruct (nearest_unvisited dm (visited w) cur n) as [[b bd]|] eqn:Hscan;
    simpl in Hrun; [|done].
  destruct b as [j|].
  - destruct (walk_inv_step _ _ _ _ _ _ _ Hinv Hlast Hscan) as [Hset Hinv'].
    rewrite Hset in Hrun. simpl in Hrun.
    destruct (IH _ Hinv' Hrun) as (Hw' & Hle & Heq).
    simpl in Hle, Heq. rewrite length_app in Hle, Heq. simpl in Hle, Heq.
    split_and!; [done|lia|]. intros _ Hb. specialize (Heq eq_refl Hb). lia.
  - injection Hrun as <-. simpl. split_and!; [|lia|done].
    destruct w. by eapply walk_inv_broke.
Qed.

Lemma walk_loop_no_break steps w w' :
  finite_matrix dm →
  (∀ i j, i < n → j < n → is_Some (entry dm i j)) →
  walk_inv dm n s w → length (order w) + steps ≤ n → broke w = false →
  walk_loop dm n steps w = Some w' → broke w' = false.
Proof.
  intros Hfin Hrows. revert w.
  induction steps as [|steps IH]; intros w Hinv Hlen Hb Hrun.
  { by injection Hrun as <-. }
  destruct (walk_inv_last _ _ _ _ Hinv) as (cur & Hlast & Hcur).
  simpl in Hrun. rewrite Hlast in Hrun. simpl in Hrun.
  destruct (nearest_unvisited dm (visited w) cur n) as [[b bd]|] eqn:Hscan;
    simpl in Hrun; [|done].
  destruct b as [j|].
  - destruct (walk_inv_step _ _ _ _ _ _ _ Hinv Hlast Hscan) as [Hset Hinv'].
    rewrite Hset in Hrun. simpl in Hrun.
    apply (IH _ Hinv'); [|done..]. simpl. rewrite length_app. simpl. lia.
  - exfalso. apply nearest_unvisited_spec in Hscan as [Hmin ->].
    destruct (fresh_index (order w) n) as (k & Hk & Hnot); [lia|].
    destruct (Hrows cur k Hcur Hk) as [d Hd].
    assert (d = Inf) as ->.
    { apply num_lt_Inf. apply (Hmin k d Hk); [|done].
      by apply (walk_inv_unvisited _ _ _ _ k Hinv). }
    by apply (finite_entry _ _ _ _ Hfin Hd).
Qed.

Lemma greedy_path_total :
  s < n → (∀ i j, i < n → j < n → is_Some (entry dm i j)) →
  is_Some (greedy_path dm n s).
Proof.
  intros Hs Hrows. unfold greedy_path.
  rewrite set_item_Some by (by rewrite length_replicate). simpl.
  apply walk_loop_total; [done|]. by apply walk_inv_start.
Qed.

Lemma greedy_path_inv w :
  s < n → greedy_path dm n s = Some w →
  walk_inv dm n s w ∧ length (order w) ≤ n ∧
  (broke w = false → length (order w) = n).
Proof.
  intros Hs. unfold greedy_path.
  rewrite set_item_Some by (by rewrite length_replicate). simpl.
  intros Hrun. apply walk_loop_inv in Hrun as (Hinv & Hle & Heq);
    [|by apply walk_inv_start].
  simpl in *. split_and!; [done|lia|]. intros Hb. specialize (Heq eq_refl Hb). lia.
Qed.

Lemma greedy_path_no_break w :
  finite_matrix dm →
  (∀ i j, i < n → j < n → is_Some (entry dm i j)) →
  s < n → greedy_path dm n s = Some w → broke w = false.
Proof.
  intros Hfin Hrows Hs. unfold greedy_path.
  rewrite set_item_Some by (by rewrite length_replicate). simpl.
  apply walk_loop_no_break; [done|done|by apply walk_inv_start|simpl; lia|done].
Qed.

Lemma walk_inv_perm w :
  walk_inv dm n s w → length (order w) = n → order w ≡ₚ range n.
Proof.
  intros Hinv Hlen. apply submseteq_length_Permutation.
  - apply NoDup_submseteq; [apply (inv_nodup _ _ _ _ Hinv)|].
    intros k Hk. apply elem_of_seq.
    apply (inv_visited _ _ _ _ Hinv) in Hk. apply lookup_lt_Some in Hk.
    rewrite (inv_length _ _ _ _ Hinv) in Hk. lia.
  - unfold range. rewrite length_seq. lia.
Qed.
End walk.



(** ** The multi-start loop *)

Lemma start_key_Some dm n s p d :
  start_key dm n s = Some (Some (p, d)) ↔
  ∃ w, greedy_path dm n s = Some w ∧ p = order w ∧ d = total_distance w.
Proof.
  unfold start_key. destruct (greedy_path dm n s) as [w|]; simpl.
  - split; [intros [= <- <-]; by exists w|]. by intros (w' & [= <-] & -> & ->).
  - split; [done|]. by intros (? & ? & _).
Qed.

Lemma nearest_neighbor_tsp_small dm :
  length dm ≤ 1 →
  nearest_neighbor_tsp dm = Some (Some (range (length dm)), Fin 0).
Proof. intros. unfold nearest_neighbor_tsp. by rewrite decide_True. Qed.

Lemma nearest_neighbor_tsp_result dm :
  square dm → 2 ≤ length dm →
  ∃ s w,
    s < length dm ∧ greedy_path dm (length dm) s = Some w ∧
    nearest_neighbor_tsp dm = Some (Some (order w), total_distance w) ∧
    (∀ s' w', s' < length dm → greedy_path dm (length dm) s' = Some w' →
              num_lt (total_distance w') (total_distance w) = false) ∧
    (∀ s' w', s' < s → greedy_path dm (length dm) s' = Some w' →
              num_lt (total_distance w) (total_distance w') = true).
Proof.
  intros Hsq Hn. set (n := length dm) in *.
  assert (∀ s, s < n → is_Some (greedy_path dm n s)) as Hpaths.
  { intros s Hs. apply greedy_path_total; [done|]. intros. by apply square_entry. }
  unfold nearest_neighbor_tsp. fold n. rewrite decide_False by lia.
  rewrite (for_each_ext _ (argmin_step (start_key dm n)))
    by (intros; apply try_start_argmin).
  destruct (argmin_total (start_key dm n) n) as [[b bt] Hrun].
  { intros s Hs. destruct (Hpaths s Hs) as [w Hw]. unfold start_key.
    rewrite Hw. by eexists. }
  rewrite Hrun. apply argmin_spec in Hrun as [Hmin Hbest].
  destruct b as [o|].
  - destruct Hbest as (s & Hs & Hkey & _ & Hlow).
    apply start_key_Some in Hkey as (w & Hw & -> & ->).
    exists s, w. split_and!; try done.
    + intros s' w' Hs' Hw'. apply (Hmin s' (order w') _ Hs').
      apply start_key_Some. by exists w'.
    + intros s' w' Hs' Hw'. apply (Hlow s' (order w') _ Hs').
      apply start_key_Some. by exists w'.
  - exfalso. subst bt. destruct (Hpaths 0) as [w Hw]; [lia|].
    apply greedy_path_inv in Hw as Hinv; [|lia]. destruct Hinv as (Hinv & _).
    pose proof (inv_fin _ _ _ _ Hinv) as Hfin.
    assert (total_distance w = Inf) as Heq.
    { apply num_lt_Inf. apply (Hmin 0 (order w)); [lia|].
      apply start_key_Some. by exists w. }
    by rewrite Heq in Hfin.
Qed.

(** ** The recomputed cost of the OR-Tools path *)

Lemma cost_step_cons dm a l acc j :
  cost_step dm (a :: l) acc (S j) = cost_step dm l acc j.
Proof. reflexivity. Qed.

Lemma cost_step_shift dm a l js acc :
  for_each (cost_step dm (a :: l)) (S <$> js) acc =
  for_each (cost_step dm l) js acc.
Proof.
  revert acc. induction js as [|j js IH]; intros acc; [done|].
  rewrite fmap_cons.
  change (for_each ?f (?k :: ?ks) ?x) with (y ← f x k; for_each f ks y).
  rewrite cost_step_cons.
  destruct (cost_step dm l acc j) as [acc'|]; simpl; [apply IH|done].
Qed.

Lemma cost_step_0 dm a b tl acc :
  cost_step dm (a :: b :: tl) acc 0 = d ← entry dm a b; Some (num_add acc d).
Proof. reflexivity. Qed.

Local Arguments path_cost : simpl never.

Lemma cost_loop_path_cost dm o acc :
  for_each (cost_step dm o) (range (length o - 1)) acc =
  r ← path_cost dm o; Some (num_add acc r).
Proof.
  revert acc. induction o as [|a [|b tl] IH]; intros acc.
  - change (Some acc = Some (num_add acc (Fin 0))). by rewrite num_add_0_r.
  - change (Some acc = Some (num_add acc (Fin 0))). by rewrite num_add_0_r.
  - rewrite path_cost_cons2.
    change (length (a :: b :: tl) - 1) with (S (length tl)).
    unfold range. rewrite <-cons_seq, <-fmap_S_seq.
    change (for_each ?f (?j :: ?js) ?x) with (y ← f x j; for_each f js y).
    rewrite cost_step_0.
    destruct (entry dm a b) as [d|]; simpl; [|done].
    rewrite cost_step_shift.
    replace (length tl) with (length (b :: tl) - 1) by (simpl; lia).
    fold (range (length (b :: tl) - 1)). rewrite IH.
    destruct (path_cost dm (b :: tl)) as [r|]; simpl; [|done].
    f_equal. clear. num_solve.
Qed.

Lemma tour_cost_path_cost dm o : tour_cost dm o = path_cost dm o.
Proof.
  unfold tour_cost. rewrite cost_loop_path_cost.
  destruct (path_cost dm o) as [r|]; simpl; [|done]. f_equal. clear. num_solve.
Qed.

Lemma path_cost_total dm o :
  square dm → Forall (λ i, i < length dm) o → is_Some (path_cost dm o).
Proof.
  intros Hsq. induction o as [|a [|b tl] IH]; intros Hall; [by eexists..|].
  rewrite path_cost_cons2.
  apply Forall_cons in Hall as [Ha Hall].
  pose proof Hall as [Hb _]%Forall_cons.
  destruct (square_entry dm a b Hsq Ha Hb) as [d ->]. simpl.
  destruct (IH Hall) as [r ->]. by eexists.
Qed.

(** ** Stripping the dummy node *)

Lemma filter_dummy_seq n a m :
  a + m ≤ n → filter (λ node, node ≠ n) (seq a m) = seq a m.
Proof.
  revert a. induction m as [|m IH]; intros a Hle; [done|].
  simpl. rewrite filter_cons_True by lia. f_equal. apply IH. lia.
Qed.

Lemma filter_dummy_range n :
  filter (λ node, node ≠ n) (range (S n)) = range n.
Proof.
  rewrite range_S, filter_app, filter_cons_False, filter_nil by (intros ?; done).
  rewrite app_nil_r. by apply filter_dummy_seq.
Qed.

Lemma length_aug_matrix dm : length (aug_matrix dm) = S (length dm).
Proof. unfold aug_matrix. rewrite length_app, length_fmap. simpl. lia. Qed.

Lemma strip_dummy_perm engine dm full_tour :
  engine_sound engine → engine (aug_matrix dm) = Some full_tour →
  filter (λ node, node ≠ length dm) full_tour ≡ₚ range (length dm).
Proof.
  intros Hsound Htour. apply Hsound in Htour.
  rewrite length_aug_matrix in Htour.
  rewrite Htour. by rewrite filter_dummy_range.
Qed.

Lemma rev_engine_sound : engine_sound rev_engine.
Proof.
  intros aug t [= <-]. by rewrite reverse_Permutation.
Qed.

Lemma no_engine_sound : engine_sound no_engine.
Proof. by intros aug t. Qed.

Lemma perm_range_facts (o : list nat) n :
  o ≡ₚ range n → length o = n ∧ NoDup o ∧ Forall (λ i, i < n) o.
Proof.
  intros Hperm. split_and!.
  - rewrite Hperm. unfold range. by rewrite length_seq.
  - rewrite Hperm. apply NoDup_seq.
  - rewrite Hperm. apply Forall_forall. intros i Hi.
    apply elem_of_seq in Hi. lia.
Qed.

(** ** What both backends return on a square matrix *)

Lemma nearest_neighbor_tsp_ok dm :
  square dm →
  ∃ o t,
    nearest_neighbor_tsp dm = Some (Some o, t) ∧
    path_cost dm o = Some t ∧ is_fin t ∧
    (length dm ≤ 1 → t = Fin 0) ∧
    (finite_matrix dm → o ≡ₚ range (length dm)).
Proof.
  intros Hsq. destruct (decide (length dm ≤ 1)) as [Hsmall|Hbig].
  - exists (range (length dm)), (Fin 0).
    rewrite nearest_neighbor_tsp_small by done. split_and!; try done.
    destruct (length dm) as [|[|?]]; [done|done|lia].
  - destruct (nearest_neighbor_tsp_result dm Hsq) as (s & w & Hs & Hw & Hnn & _);
      [lia|].
    exists (order w), (total_distance w).
    destruct (greedy_path_inv _ _ _ _ Hs Hw) as (Hinv & _ & Hfull).
    split_and!; [done|apply (inv_cost _ _ _ _ Hinv)|apply (inv_fin _ _ _ _ Hinv)|lia|].
    intros Hfin. eapply walk_inv_perm; [done|]. apply Hfull.
    eapply greedy_path_no_break; [done| |done..].
    intros. by apply square_entry.
Qed.

Lemma solve_tsp_ortools_ok engine dm :
  square dm → engine_sound engine →
  ∃ o t,
    solve_tsp_ortools engine dm = Some (Some o, t) ∧
    path_cost dm o = Some t ∧
    (length dm ≤ 1 → t = Fin 0) ∧
    (finite_matrix dm → o ≡ₚ range (length dm)).
Proof.
  intros Hsq Hsound. unfold solve_tsp_ortools.
  destruct (decide (length dm ≤ 1)) as [Hsmall|Hbig].
  { exists (range (length dm)), (Fin 0). split_and!; try done.
    destruct (length dm) as [|[|?]]; [done|done|lia]. }
  destruct (decide (length dm = 2)) as [Htwo|Hmore].
  { destruct (square_entry dm 0 1 Hsq) as [d Hd]; [lia..|].
    exists [0; 1], d. rewrite Hd. split_and!; [done| |lia|by rewrite Htwo].
    rewrite path_cost_cons2, Hd. simpl. f_equal. clear. num_solve. }
  destruct (engine (aug_matrix dm)) as [full_tour|] eqn:Htour.
  - pose proof (strip_dummy_perm _ _ _ Hsound Htour) as Hperm.
    set (o := filter (λ node, node ≠ length dm) full_tour) in *.
    destruct (path_cost_total dm o Hsq) as [t Ht].
    { by apply perm_range_facts. }
    exists o, t. rewrite tour_cost_path_cost, Ht. split_and!; [done|done|lia|done].
  - destruct (nearest_neighbor_tsp_ok dm Hsq) as (o & t & ? & ? & ? & ? & ?).
    exists o, t. split_and!; done.
Qed.

Lemma solve_ok HAS_ORTOOLS engine dm :
  square dm → engine_sound engine →
  ∃ o t,
    solve HAS_ORTOOLS engine dm = Some (Some o, t) ∧
    path_cost dm o = Some t ∧
    (length dm ≤ 1 → t = Fin 0) ∧
    (finite_matrix dm → o ≡ₚ range (length dm)).
Proof.
  intros Hsq Hsound. destruct HAS_ORTOOLS; simpl.
  - by apply solve_tsp_ortools_ok.
  - destruct (nearest_neighbor_tsp_ok dm Hsq) as (o & t & ? & ? & ? & ? & ?).
    exists o, t. split_and!; done.
Qed.

(** * The claims *)

(** The scenarios of the specification for one and two nodes. *)
Example solve_one_node engine :
  solve true engine [[Fin 0]] = Some (Some [0], Fin 0) ∧
  solve false engine [[Fin 0]] = Some (Some [0], Fin 0).
Proof. split; reflexivity. Qed.

Example solve_two_nodes engine :
  solve true engine [[Fin 0; Fin 7]; [Fin 7; Fin 0]] = Some (Some [0; 1], Fin 7) ∧
  solve false engine [[Fin 0; Fin 7]; [Fin 7; Fin 0]] = Some (Some [0; 1], Fin 7).
Proof. split; reflexivity. Qed.

(** The four-node scenario: the fallback returns the path 2, 0, 1, 3 of
    cost 50, found from start 2. *)
Example nearest_neighbor_tsp_dm4 :
  nearest_neighbor_tsp dm4 = Some (Some [2; 0; 1; 3], Fin 50).
Proof. vm_compute. reflexivity. Qed.

(** C3.  The fallback is deterministic: two runs on one matrix return the
    same order and cost.  On a square matrix with [n >= 2] the path built
    from every start moves at each step to the nearest unvisited node, the
    lowest index among equally near ones; the order returned is the path of
    a start of least total cost, the lowest such start. *)
Theorem nearest_neighbor_deterministic dm :
  (∀ r1 r2,
     nearest_neighbor_tsp dm = r1 → nearest_neighbor_tsp dm = r2 → r1 = r2) ∧
  (square dm → 2 ≤ length dm →
   (∀ s w, s < length dm → greedy_path dm (length dm) s = Some w →
           greedy_from dm (length dm) s (order w)) ∧
   ∃ s w,
     s < length dm ∧ greedy_path dm (length dm) s = Some w ∧
     nearest_neighbor_tsp dm = Some (Some (order w), total_distance w) ∧
     (∀ s' w', s' < length dm → greedy_path dm (length dm) s' = Some w' →
               num_lt (total_distance w') (total_distance w) = false) ∧
     (∀ s' w', s' < s → greedy_path dm (length dm) s' = Some w' →
               num_lt (total_distance w) (total_distance w') = true)).
Proof.
  split; [by intros r1 r2 <- <-|]. intros Hsq Hn. split.
  - intros s w Hs Hw. apply greedy_path_inv in Hw as [Hinv _]; [|done].
    apply (inv_greedy _ _ _ _ Hinv).
  - by apply nearest_neighbor_tsp_result.
Qed.

Lemma nearest_neighbor_deterministic_witness :
  ∃ s w,
    s < length dm4 ∧ greedy_path dm4 (length dm4) s = Some w ∧
    nearest_neighbor_tsp dm4 = Some (Some (order w), total_distance w) ∧
    (∀ s' w', s' < length dm4 → greedy_path dm4 (length dm4) s' = Some w' →
              num_lt (total_distance w') (total_distance w) = false) ∧
    (∀ s' w', s' < s → greedy_path dm4 (length dm4) s' = Some w' →
              num_lt (total_distance w) (total_distance w') = true).
Proof.
  apply (nearest_neighbor_deterministic dm4).
  - repeat constructor.
  - simpl. lia.
Defined.

(** When an entry is [inf] the [break] of line 133 can be executed, and the
    order returned is then not a permutation. *)
Example nearest_neighbor_tsp_break :
  greedy_path [[Fin 0; Inf]; [Inf; Fin 0]] 2 0
    = Some (Walk [0] [true; false] (Fin 0) true) ∧
  nearest_neighbor_tsp [[Fin 0; Inf]; [Inf; Fin 0]] = Some (Some [0], Fin 0).
Proof. split; vm_compute; reflexivity. Qed.

(** ** The diagonal *)

Section diagonal.
Context (dm dm' : matrix) (n : nat).
Hypothesis offdiag :
  ∀ i j, i < n → j < n → i ≠ j → entry dm i j = entry dm' i j.

Lemma nearest_unvisited_offdiag vis cur :
  length vis = n → vis !! cur = Some true →
  nearest_unvisited dm vis cur n = nearest_unvisited dm' vis cur n.
Proof.
  intros Hlen Hcur. unfold nearest_unvisited. apply for_each_ext.
  intros j st Hj. apply elem_of_seq in Hj. unfold scan_body.
  destruct (vis !! j) as [[]|] eqn:Hv; simpl; [done| |done].
  rewrite offdiag; [done| |lia|congruence].
  apply lookup_lt_Some in Hcur. lia.
Qed.

Lemma walk_loop_offdiag steps w :
  length (visited w) = n →
  (∀ cur, last (order w) = Some cur → visited w !! cur = Some true) →
  walk_loop dm n steps w = walk_loop dm' n steps w.
Proof.
  revert w. induction steps as [|steps IH]; intros w Hlen Hlast; [done|].
  simpl. destruct (last (order w)) as [cur|] eqn:Hcur; simpl; [|done].
  rewrite nearest_unvisited_offdiag by auto.
  destruct (nearest_unvisited dm' (visited w) cur n) as [[[j|] bd]|];
    simpl; [|done..].
  destruct (set_item (visited w) j true) as [vis'|] eqn:Hset; simpl; [|done].
  apply set_item_inv in Hset as [Hj ->].
  apply IH; simpl.
  - by rewrite length_insert.
  - intros cur'. rewrite last_snoc. intros [= <-].
    by apply list_lookup_insert_eq.
Qed.

Lemma greedy_path_offdiag s : greedy_path dm n s = greedy_path dm' n s.
Proof.
  unfold greedy_path.
  destruct (set_item (replicate n false) s true) as [vis|] eqn:Hset;
    simpl; [|done].
  apply set_item_inv in Hset as [Hs ->].
  apply walk_loop_offdiag; simpl.
  - by rewrite length_insert, length_replicate.
  - intros cur [= <-]. by apply list_lookup_insert_eq.
Qed.
End diagonal.

(** C9.  The fallback never reads a diagonal entry: two matrices of one
    size that agree on every off-diagonal entry, whatever their diagonals,
    get the same order and the same total cost. *)
Theorem diagonal_never_read dm dm' :
  length dm = length dm' →
  (∀ i j, i < length dm → j < length dm → i ≠ j →
          entry dm i j = entry dm' i j) →
  nearest_neighbor_tsp dm = nearest_neighbor_tsp dm'.
Proof.
  intros Hlen Hoff. unfold nearest_neighbor_tsp. rewrite <-Hlen.
  case_decide; [done|]. apply for_each_ext.
  intros s st _. unfold try_start.
  by rewrite (greedy_path_offdiag dm dm' (length dm) Hoff s).
Qed.

Lemma diagonal_never_read_witness :
  nearest_neighbor_tsp dm4 = nearest_neighbor_tsp dm4_diag.
Proof.
  apply (diagonal_never_read dm4 dm4_diag).
  - reflexivity.
  - intros i j Hi Hj Hne. simpl in Hi, Hj.
    destruct i as [|[|[|[|i]]]]; [| | |  |lia];
      (destruct j as [|[|[|[|j]]]]; [| | | |lia]); (done || reflexivity).
Defined.

(** ** Two nodes *)

Lemma square_two dm :
  square dm → length dm = 2 → ∃ a b c d, dm = [[a; b]; [c; d]].
Proof.
  intros Hsq Hlen.
  destruct dm as [|r0 [|r1 [|]]]; try done.
  apply Forall_cons in Hsq as [H0 [H1 _]%Forall_cons]. simpl in H0, H1.
  destruct r0 as [|a [|b [|]]]; try done.
  destruct r1 as [|c [|d [|]]]; try done.
  by exists a, b, c, d.
Qed.

(** C5, as the code has it.  For every square matrix with finite entries
    and [n = 2]: [solve_tsp_ortools] returns the order 0, 1 with
    [matrix[0][1]] before it builds the augmented matrix, whatever the
    engine would answer; the fallback has no such case, it runs both starts
    and returns the order 1, 0 with [matrix[1][0]] when that is strictly
    smaller than [matrix[0][1]], and 0, 1 with [matrix[0][1]] otherwise. *)
Theorem two_node_result engine dm :
  square dm → finite_matrix dm → length dm = 2 →
  ∃ m01 m10,
    entry dm 0 1 = Some m01 ∧ entry dm 1 0 = Some m10 ∧
    solve true engine dm = Some (Some [0; 1], m01) ∧
    solve false engine dm =
      Some (if num_lt m10 m01 then (Some [1; 0], m10) else (Some [0; 1], m01)).
Proof.
  intros Hsq Hfin Hlen.
  destruct (square_two dm Hsq Hlen) as (a & b & c & d & ->).
  apply Forall_cons in Hfin as [Hr0 [Hr1 _]%Forall_cons].
  apply Forall_cons in Hr0 as [_ [Hb _]%Forall_cons].
  apply Forall_cons in Hr1 as [Hc _].
  destruct b as [b|]; [|done]. destruct c as [c|]; [|done].
  exists (Fin b), (Fin c). split_and!; [done..|].
  unfold solve, nearest_neighbor_tsp. simpl.
  unfold try_start, greedy_path. simpl.
  rewrite !Z.add_0_l. by destruct (c <? b)%Z.
Qed.

Lemma two_node_result_witness :
  ∃ m01 m10,
    entry dm2_oneway 0 1 = Some m01 ∧ entry dm2_oneway 1 0 = Some m10 ∧
    solve true rev_engine dm2_oneway = Some (Some [0; 1], m01) ∧
    solve false rev_engine dm2_oneway =
      Some (if num_lt m10 m01 then (Some [1; 0], m10) else (Some [0; 1], m01)).
Proof.
  apply (two_node_result rev_engine dm2_oneway).
  - repeat constructor.
  - repeat constructor.
  - reflexivity.
Defined.

(** C5 as stated fails in the fallback-only configuration: on the valid
    two-node matrix with [matrix[0][1] = 7] and [matrix[1][0] = 3] the
    result is the order 1, 0 with distance 3, not 0, 1 with distance 7. *)
Lemma two_node_counterexample :
  square dm2_oneway ∧ finite_matrix dm2_oneway ∧ nonneg_matrix dm2_oneway ∧
  length dm2_oneway = 2 ∧ entry dm2_oneway 0 1 = Some (Fin 7) ∧
  solve false no_engine dm2_oneway = Some (Some [1; 0], Fin 3) ∧
  solve false no_engine dm2_oneway ≠ Some (Some [0; 1], Fin 7).
Proof.
  split_and!; [repeat constructor; done..|reflexivity|reflexivity| |].
  - vm_compute. reflexivity.
  - vm_compute. discriminate.
Qed.

(** ** The batch driver *)

Lemma solve_cluster_total HAS_ORTOOLS engine c :
  engine_sound engine → well_formed c →
  is_Some (solve_cluster HAS_ORTOOLS engine c).
Proof.
  intros Hsound [[cid Hcid] (dm & Hdm & Hsq)]. unfold solve_cluster.
  rewrite Hdm. simpl.
  destruct (solve_ok HAS_ORTOOLS engine dm Hsq Hsound) as (o & t & -> & _).
  simpl. rewrite Hcid. by eexists.
Qed.

Lemma solve_cluster_id HAS_ORTOOLS engine c r :
  solve_cluster HAS_ORTOOLS engine c = Some r →
  Cluster.clusterId c = Some (Route.clusterId r).
Proof.
  unfold solve_cluster. intros Hrun.
  apply bind_Some in Hrun as (dm & _ & Hrun).
  apply bind_Some in Hrun as ([o t] & _ & Hrun).
  apply bind_Some in Hrun as (cid & Hcid & [= <-]). done.
Qed.


Lemma main_Some HAS_ORTOOLS engine data resp :
  main HAS_ORTOOLS engine data = Some resp ↔
  mapM (solve_cluster HAS_ORTOOLS engine) (default [] (clusters data))
    = Some (routes resp) ∧
  solver resp = (if HAS_ORTOOLS then "ortools" else "nearest_neighbor")%string.
Proof.
  unfold main.
  destruct (mapM _ (default [] (clusters data))) as [rs|]; simpl.
  - split.
    + by intros [= <-].
    + destruct resp as [rs' lbl]. simpl. by intros [[= ->] ->].
  - split; [done|]. by intros [? _].
Qed.



(** The batch of the specification's scenario, solved by an engine that
    answers with the tour [n, n-1, ..., 0]. *)
Example main_batch_3_5 :
  main true rev_engine batch_3_5 =
  Some (Response [Route.Make 11 (Some [2; 1; 0]) (Fin 6);
                  Route.Make 7 (Some [4; 3; 2; 1; 0]) (Fin 10)] "ortools").
Proof. vm_compute. reflexivity. Qed.

(** C6, as the code has it.  Every response carries the solver label
    ["ortools"] when the engine is available and ["nearest_neighbor"] when
    it is not. *)
Theorem solver_label (HAS_ORTOOLS : bool) engine data resp :
  main HAS_ORTOOLS engine data = Some resp →
  solver resp = (if HAS_ORTOOLS then "ortools" else "nearest_neighbor")%string.
Proof. intros Hrun. by apply main_Some in Hrun as [_ ?]. Qed.

Lemma solver_label_witness :
  ∃ resp,
    main true rev_engine batch_3_5 = Some resp ∧ solver resp = "ortools"%string.
Proof.
  eexists. split.
  - vm_compute. reflexivity.
  - apply (solver_label true rev_engine batch_3_5). vm_compute. reflexivity.
Defined.

(** C6 as stated fails: the labels are not ["exact"] and ["heuristic"]. *)
Lemma solver_label_counterexample :
  (∃ resp, main true rev_engine batch_3_5 = Some resp ∧
           solver resp = "ortools"%string ∧ solver resp ≠ "exact"%string) ∧
  (∃ resp, main false rev_engine batch_3_5 = Some resp ∧
           solver resp = "nearest_neighbor"%string ∧
           solver resp ≠ "heuristic"%string).
Proof.
  split; eexists; (split; [vm_compute; reflexivity|]); simpl; done.
Qed.


(** C8.  A batch of [k] clusters gets [k] routes, in the order of the
    clusters: the route at position [i] is the solution of the cluster at
    position [i] and carries its [clusterId].  A batch of well-formed
    clusters does get a response. *)
Theorem routes_echo_clusters (HAS_ORTOOLS : bool) engine data :
  (engine_sound engine → Forall well_formed (default [] (clusters data)) →
   is_Some (main HAS_ORTOOLS engine data)) ∧
  ∀ resp,
    main HAS_ORTOOLS engine data = Some resp →
    length (routes resp) = length (default [] (clusters data)) ∧
    ∀ i c,
      default [] (clusters data) !! i = Some c →
      ∃ r, routes resp !! i = Some r ∧
           solve_cluster HAS_ORTOOLS engine c = Some r ∧
           Cluster.clusterId c = Some (Route.clusterId r).
Proof.
  split.
  - intros Hsound Hwf. unfold main.
    destruct (mapM_is_Some_2 (solve_cluster HAS_ORTOOLS engine)
                (default [] (clusters data))) as [rs ->]; [|by eexists].
    eapply Forall_impl; [exact Hwf|]. intros c Hc. by apply solve_cluster_total.
  - intros resp [Hrun _]%main_Some. split.
    + symmetry. by eapply length_mapM.
    + intros i c Hc. apply mapM_Some_1 in Hrun.
      destruct (Forall2_lookup_l _ _ _ _ _ Hrun Hc) as (r & Hr & Hsolve).
      exists r. split_and!; [done|done|]. by eapply solve_cluster_id.
Qed.

Lemma routes_echo_clusters_witness :
  is_Some (main true rev_engine batch_3_5) ∧
  ∀ resp,
    main true rev_engine batch_3_5 = Some resp →
    length (routes resp) = length (default [] (clusters batch_3_5)) ∧
    ∀ i c,
      default [] (clusters batch_3_5) !! i = Some c →
      ∃ r, routes resp !! i = Some r ∧
           solve_cluster true rev_engine c = Some r ∧
           Cluster.clusterId c = Some (Route.clusterId r).
Proof.
  destruct (routes_echo_clusters true rev_engine batch_3_5) as [Htotal Hecho].
  split; [|exact Hecho]. apply Htotal; [exact rev_engine_sound|].
  apply Forall_cons; split; [|apply Forall_singleton];
    (split; [by eexists|eexists; split; [reflexivity|repeat constructor]]).
Defined.

(** * Further properties of the code *)

(** ** The augmented matrix (lines 54-60) *)

Lemma aug_matrix_row dm i row :
  dm !! i = Some row → aug_matrix dm !! i = Some (row ++ [Fin 0]).
Proof.
  intros Hrow. unfold aug_matrix.
  rewrite lookup_app_l by (rewrite length_fmap; by eapply lookup_lt_Some).
  by rewrite list_lookup_fmap, Hrow.
Qed.

Lemma aug_matrix_last dm :
  aug_matrix dm !! length dm = Some (replicate (length dm + 1) (Fin 0)).
Proof.
  unfold aug_matrix. rewrite lookup_app_r by (by rewrite length_fmap).
  by rewrite length_fmap, Nat.sub_diag.
Qed.

Lemma aug_entry_real dm i j :
  square dm → i < length dm → j < length dm →
  entry (aug_matrix dm) i j = entry dm i j.
Proof.
  intros Hsq Hi Hj. unfold entry.
  destruct (lookup_lt_is_Some_2 dm i Hi) as [row Hrow].
  rewrite (aug_matrix_row _ _ _ Hrow), Hrow. simpl.
  apply lookup_app_l. unfold square in Hsq. rewrite Forall_lookup in Hsq.
  by rewrite (Hsq i row Hrow).
Qed.

Lemma aug_entry_to_dummy dm i :
  square dm → i ≤ length dm →
  entry (aug_matrix dm) i (length dm) = Some (Fin 0).
Proof.
  intros Hsq Hi. unfold entry.
  destruct (decide (i = length dm)) as [->|Hne].
  - rewrite aug_matrix_last. simpl. apply lookup_replicate_2. lia.
  - destruct (lookup_lt_is_Some_2 dm i) as [row Hrow]; [lia|].
    rewrite (aug_matrix_row _ _ _ Hrow). simpl.
    unfold square in Hsq. rewrite Forall_lookup in Hsq.
    rewrite <-(Hsq i row Hrow). by rewrite list_lookup_middle.
Qed.

Lemma aug_entry_from_dummy dm j :
  j ≤ length dm → entry (aug_matrix dm) (length dm) j = Some (Fin 0).
Proof.
  intros Hj. unfold entry. rewrite aug_matrix_last. simpl.
  apply lookup_replicate_2. lia.
Qed.

Lemma square_aug_matrix dm : square dm → square (aug_matrix dm).
Proof.
  intros Hsq. unfold square. rewrite length_aug_matrix.
  unfold aug_matrix. apply Forall_app. split.
  - apply Forall_fmap. eapply Forall_impl; [exact Hsq|].
    intros row Hrow. simpl in *. rewrite length_app. simpl. lia.
  - apply Forall_singleton. rewrite length_replicate. lia.
Qed.

(** X1.  The reduction of lines 54-60: for a square [n] by [n] matrix the
    augmented matrix is square of size [n + 1], it has the original entry
    between any two real nodes, and 0 on every arc to or from the dummy
    node [n]. *)
Theorem aug_matrix_spec dm :
  square dm →
  square (aug_matrix dm) ∧ length (aug_matrix dm) = length dm + 1 ∧
  (∀ i j, i < length dm → j < length dm →
          entry (aug_matrix dm) i j = entry dm i j) ∧
  (∀ i, i ≤ length dm →
        entry (aug_matrix dm) i (length dm) = Some (Fin 0) ∧
        entry (aug_matrix dm) (length dm) i = Some (Fin 0)).
Proof.
  intros Hsq. split_and!.
  - by apply square_aug_matrix.
  - rewrite length_aug_matrix. lia.
  - intros. by apply aug_entry_real.
  - intros i Hi. split; [by apply aug_entry_to_dummy|by apply aug_entry_from_dummy].
Qed.

Lemma aug_matrix_spec_witness :
  square (aug_matrix dm3) ∧ length (aug_matrix dm3) = length dm3 + 1 ∧
  (∀ i j, i < length dm3 → j < length dm3 →
          entry (aug_matrix dm3) i j = entry dm3 i j) ∧
  (∀ i, i ≤ length dm3 →
        entry (aug_matrix dm3) i (length dm3) = Some (Fin 0) ∧
        entry (aug_matrix dm3) (length dm3) i = Some (Fin 0)).
Proof. apply (aug_matrix_spec dm3). repeat constructor. Defined.

(** ** The dummy node costs nothing *)

Lemma path_cost_aug_to_dummy dm p :
  square dm → Forall (λ i, i < length dm) p →
  path_cost (aug_matrix dm) (p ++ [length dm]) = path_cost dm p.
Proof.
  intros Hsq. induction p as [|a [|b tl] IH]; intros Hall; [done| |].
  - apply Forall_cons in Hall as [Ha _].
    change ([a] ++ [length dm]) with [a; length dm].
    rewrite path_cost_cons2, aug_entry_to_dummy by (done || lia). done.
  - apply Forall_cons in Hall as [Ha Hall].
    pose proof Hall as [Hb _]%Forall_cons.
    change ((a :: b :: tl) ++ [length dm]) with (a :: b :: (tl ++ [length dm])).
    rewrite !path_cost_cons2, aug_entry_real by done.
    change (b :: tl ++ [length dm]) with ((b :: tl) ++ [length dm]).
    by rewrite IH.
Qed.

Lemma dummy_reduction_cost dm p :
  square dm → Forall (λ i, i < length dm) p →
  closed_tour_cost (aug_matrix dm) (length dm :: p) = path_cost dm p.
Proof.
  intros Hsq Hall. unfold closed_tour_cost.
  rewrite <-(path_cost_aug_to_dummy dm p Hsq Hall).
  change ((length dm :: p) ++ [length dm])
    with (length dm :: (p ++ [length dm])).
  destruct (p ++ [length dm]) as [|x q] eqn:Hq; [by destruct p|].
  rewrite path_cost_cons2, aug_entry_from_dummy.
  - simpl. destruct (path_cost (aug_matrix dm) (x :: q)) as [r|]; simpl; [|done].
    f_equal. clear. num_solve.
  - destruct p as [|y p']; simpl in Hq; injection Hq as <- _; [lia|].
    apply Forall_cons in Hall as [? _]. lia.
Qed.

Lemma filter_dummy_id n (p : list nat) :
  Forall (λ i, i < n) p → filter (λ node, node ≠ n) p = p.
Proof.
  induction p as [|a p IH]; intros Hall; [done|].
  apply Forall_cons in Hall as [Ha Hall].
  rewrite filter_cons_True by lia. by rewrite IH.
Qed.

(** X2.  On the OR-Tools path ([n >= 3], the engine answers with a tour
    that leaves the depot [n] and visits the real nodes [p]) the function
    returns [p] itself, and the distance it recomputes on the original
    matrix is the cost of the engine's closed tour on the augmented matrix:
    the two arcs at the dummy node add nothing. *)
Theorem ortools_cost_is_closed_tour_cost engine dm p :
  square dm → 3 ≤ length dm →
  engine (aug_matrix dm) = Some (length dm :: p) →
  Forall (λ i, i < length dm) p →
  ∃ t,
    solve_tsp_ortools engine dm = Some (Some p, t) ∧
    closed_tour_cost (aug_matrix dm) (length dm :: p) = Some t ∧
    path_cost dm p = Some t.
Proof.
  intros Hsq Hn Htour Hall.
  destruct (path_cost_total dm p Hsq Hall) as [t Ht]. exists t.
  split_and!; [|by rewrite dummy_reduction_cost|done].
  unfold solve_tsp_ortools. rewrite !decide_False by lia. rewrite Htour.
  rewrite filter_cons_False by (intros ?; done).
  rewrite filter_dummy_id by done.
  by rewrite tour_cost_path_cost, Ht.
Qed.

Lemma ortools_cost_is_closed_tour_cost_witness :
  ∃ t,
    solve_tsp_ortools rev_engine dm3 = Some (Some [2; 1; 0], t) ∧
    closed_tour_cost (aug_matrix dm3) (length dm3 :: [2; 1; 0]) = Some t ∧
    path_cost dm3 [2; 1; 0] = Some t.
Proof.
  apply (ortools_cost_is_closed_tour_cost rev_engine dm3 [2; 1; 0]).
  - repeat constructor.
  - simpl. lia.
  - reflexivity.
  - repeat constructor.
Defined.

(** X3.  The docstring of [solve_tsp_ortools], for [n >= 3] (the engine is
    not consulted below that, and for [n = 2] the order 0, 1 is returned
    even when 1, 0 is cheaper): when the engine's tour, starting at the
    depot [n], is a cheapest closed tour of the augmented graph, the order
    returned is a cheapest open path of the original matrix, among all
    orders that visit every node once. *)
Theorem ortools_optimal_tour_gives_optimal_path engine dm p t :
  square dm → 3 ≤ length dm →
  engine (aug_matrix dm) = Some (length dm :: p) →
  p ≡ₚ range (length dm) →
  closed_tour_cost (aug_matrix dm) (length dm :: p) = Some t →
  (∀ q c, q ≡ₚ range (length dm) →
          closed_tour_cost (aug_matrix dm) (length dm :: q) = Some c →
          num_lt c t = false) →
  solve_tsp_ortools engine dm = Some (Some p, t) ∧
  ∀ q c, q ≡ₚ range (length dm) → path_cost dm q = Some c →
         num_lt c t = false.
Proof.
  intros Hsq Hn Htour Hperm Ht Hbest.
  assert (∀ q, q ≡ₚ range (length dm) → Forall (λ i, i < length dm) q) as Hin
    by (intros q Hq; by apply perm_range_facts).
  split.
  - destruct (ortools_cost_is_closed_tour_cost engine dm p Hsq Hn Htour (Hin p Hperm))
      as (t' & Hrun & Ht' & _).
    rewrite Ht in Ht'. by injection Ht' as <-.
  - intros q c Hq Hc. apply (Hbest q c Hq).
    by rewrite dummy_reduction_cost by auto.
Qed.

Lemma ortools_optimal_tour_gives_optimal_path_witness :
  solve_tsp_ortools rev_engine dm3 = Some (Some [2; 1; 0], Fin 6) ∧
  ∀ q c, q ≡ₚ range (length dm3) → path_cost dm3 q = Some c →
         num_lt c (Fin 6) = false.
Proof.
  apply (ortools_optimal_tour_gives_optimal_path rev_engine dm3 [2; 1; 0] (Fin 6)).
  - repeat constructor.
  - simpl. lia.
  - reflexivity.
  - symmetry. apply permutations_Permutation. vm_compute. repeat constructor.
  - reflexivity.
  - intros q c Hq Hc. symmetry in Hq.
    apply permutations_Permutation in Hq. vm_compute in Hq.
    repeat (apply elem_of_cons in Hq as [->|Hq]);
      [vm_compute in Hc; by injection Hc as <-..|by apply elem_of_nil in Hq].
Defined.

(** ** Bounds on the total distance *)

Lemma path_cost_bounds dm n (lo hi : Z) o :
  (∀ i j, i < n → j < n → i ≠ j →
          ∃ z, entry dm i j = Some (Fin z) ∧ (lo ≤ z ≤ hi)%Z) →
  NoDup o → Forall (λ i, i < n) o →
  ∃ c, path_cost dm o = Some (Fin c) ∧
       (Z.of_nat (length o - 1) * lo ≤ c ≤ Z.of_nat (length o - 1) * hi)%Z.
Proof.
  intros Hent. induction o as [|a [|b tl] IH]; intros Hnd Hall.
  - exists 0%Z. split; [done|]. simpl. lia.
  - exists 0%Z. split; [done|]. simpl. lia.
  - apply NoDup_cons in Hnd as [Hab Hnd].
    apply Forall_cons in Hall as [Ha Hall].
    pose proof Hall as [Hb _]%Forall_cons.
    destruct (Hent a b Ha Hb) as (z & Hz & Hzlo & Hzhi).
    { intros ->. apply Hab. by left. }
    destruct (IH Hnd Hall) as (c & Hc & Hclo & Hchi).
    exists (z + c)%Z. rewrite path_cost_cons2, Hz. simpl. rewrite Hc. simpl.
    split; [done|].
    change (length (a :: b :: tl) - 1) with (S (length tl)).
    replace (length (b :: tl) - 1) with (length tl) in Hclo, Hchi
      by (simpl; lia).
    rewrite Nat2Z.inj_succ, !Z.mul_succ_l. lia.
Qed.

(** ** The fallback on matrices with missing or infinite entries *)





Lemma walk_loop_broke dm n s steps w w' :
  walk_inv dm n s w → walk_loop dm n steps w = Some w' →
  broke w = false → broke w' = true →
  ∃ cur, last (order w') = Some cur ∧
         nearest_unvisited dm (visited w') cur n = Some (None, Inf).
Proof.
  revert w. induction steps as [|steps IH]; intros w Hinv Hrun Hb Hb'.
  { injection Hrun as <-. congruence. }
  destruct (walk_inv_last _ _ _ _ Hinv) as (cur & Hlast & Hcur).
  simpl in Hrun. rewrite Hlast in Hrun. simpl in Hrun.
  destruct (nearest_unvisited dm (visited w) cur n) as [[b bd]|] eqn:Hscan;
    simpl in Hrun; [|done].
  destruct b as [j|].
  - destruct (walk_inv_step _ _ _ _ _ _ _ Hinv Hlast Hscan) as [Hset Hinv'].
    rewrite Hset in Hrun. simpl in Hrun. by apply (IH _ Hinv' Hrun).
  - injection Hrun as <-. simpl. exists cur. split; [done|].
    apply nearest_unvisited_spec in Hscan as Hspec. by destruct Hspec as [_ ->].
Qed.

(** ** A change of unit *)

Lemma for_each_fmap {S S'} (f : S → S') (body : S → nat → option S)
    (body' : S' → nat → option S') js s :
  (∀ j t, j ∈ js → body' (f t) j = f <$> body t j) →
  for_each body' js (f s) = f <$> for_each body js s.
Proof.
  revert s. induction js as [|j js IH]; intros s Hsim; [done|].
  simpl. rewrite Hsim by left.
  destruct (body s j) as [t|]; simpl; [|done].
  apply IH. intros i u Hi. apply Hsim. by right.
Qed.

Section scale.
Context (k : Z) (Hk : (0 < k)%Z).







End scale.


(** ** The batch driver, cluster by cluster *)

Lemma mapM_app {A B} (f : A → option B) l1 l2 :
  mapM f (l1 ++ l2) = k1 ← mapM f l1; k2 ← mapM f l2; Some (k1 ++ k2).
Proof.
  induction l1 as [|x l1 IH]; simpl.
  - by destruct (mapM f l2).
  - destruct (f x) as [y|]; simpl; [|done]. rewrite IH.
    destruct (mapM f l1) as [k1|]; simpl; [|done].
    by destruct (mapM f l2).
Qed.

(** X8.  Clusters are solved independently, in order: the response to a
    batch [cs1 ++ cs2] has the routes of [cs1] followed by the routes of
    [cs2], and the run aborts exactly when the run on [cs1] or the run on
    [cs2] does. *)
Theorem main_app (HAS_ORTOOLS : bool) engine cs1 cs2 :
  main HAS_ORTOOLS engine (Request (Some (cs1 ++ cs2))) =
  r1 ← main HAS_ORTOOLS engine (Request (Some cs1));
  r2 ← main HAS_ORTOOLS engine (Request (Some cs2));
  Some (Response (routes r1 ++ routes r2) (solver r1)).
Proof.
  unfold main. simpl. rewrite mapM_app.
  destruct (mapM _ cs1) as [k1|]; simpl; [|done].
  by destruct (mapM _ cs2) as [k2|].
Qed.

(** X9.  [voterIds] is never read: two batches whose clusters agree, one
    by one, on [clusterId] and [distanceMatrix] get the same response (or
    both abort), whatever [voterIds] holds or lacks. *)
Theorem voterIds_ignored (HAS_ORTOOLS : bool) engine cs cs' :
  Forall2 (λ c c', Cluster.clusterId c = Cluster.clusterId c' ∧
                   Cluster.distanceMatrix c = Cluster.distanceMatrix c')
          cs cs' →
  main HAS_ORTOOLS engine (Request (Some cs)) =
  main HAS_ORTOOLS engine (Request (Some cs')).
Proof.
  intros Hsame. unfold main. simpl.
  rewrite (Forall2_mapM_ext (solve_cluster HAS_ORTOOLS engine)
             (solve_cluster HAS_ORTOOLS engine) cs cs'); [done|].
  eapply Forall2_impl; [exact Hsame|]. intros c c' [Hid Hdm].
  unfold solve_cluster. by rewrite Hid, Hdm.
Qed.

Lemma voterIds_ignored_witness :
  main true rev_engine (Request (Some (default [] (clusters batch_3_5)))) =
  main true rev_engine
    (Request (Some (drop_voterIds <$> default [] (clusters batch_3_5)))).
Proof.
  apply (voterIds_ignored true rev_engine).
  repeat constructor.
Defined.

Lemma solve_fall_through engine dm :
  length dm ≠ 2 → engine (aug_matrix dm) = None →
  solve_tsp_ortools engine dm = nearest_neighbor_tsp dm.
Proof.
  intros Hn Hnone. unfold solve_tsp_ortools, nearest_neighbor_tsp.
  case_decide; [done|]. rewrite decide_False by done. by rewrite Hnone.
Qed.

(** X10.  The solver label records only that the engine is installed, not
    which algorithm produced the routes: when the engine finds no tour for
    any cluster of a batch without two-node clusters, every route is the
    fallback's, the routes are those of the fallback-only configuration,
    and the response is still labelled ["ortools"]. *)
Theorem label_ignores_fall_through engine cs :
  (∀ c dm, c ∈ cs → Cluster.distanceMatrix c = Some dm →
           length dm ≠ 2 ∧ engine (aug_matrix dm) = None) →
  main true engine (Request (Some cs)) =
  (λ r, Response (routes r) "ortools") <$>
    main false engine (Request (Some cs)).
Proof.
  intros Hfall. unfold main. simpl.
  rewrite (Forall_mapM_ext (solve_cluster true engine)
             (solve_cluster false engine) cs).
  - by destruct (mapM (solve_cluster false engine) cs).
  - apply Forall_forall. intros c Hc. unfold solve_cluster, solve.
    destruct (Cluster.distanceMatrix c) as [dm|] eqn:Hdm; simpl; [|done].
    destruct (Hfall c dm Hc Hdm) as [Hn Hnone].
    by rewrite solve_fall_through.
Qed.

Lemma label_ignores_fall_through_witness :
  main true no_engine (Request (Some (default [] (clusters batch_3_5)))) =
  (λ r, Response (routes r) "ortools") <$>
    main false no_engine (Request (Some (default [] (clusters batch_3_5)))).
Proof.
  apply (label_ignores_fall_through no_engine).
  intros c dm Hc Hdm. split; [|reflexivity].
  simpl in Hc. apply elem_of_cons in Hc as [->|Hc].
  - injection Hdm as <-. simpl. lia.
  - apply elem_of_cons in Hc as [->|Hc]; [|by apply elem_of_nil in Hc].
    injection Hdm as <-. simpl. lia.
Defined.

(** * The fallback on Python's numbers *)

(** ** The first embedding is the second one on integers and [inf] *)

Lemma py_lt_to_py a b : Py.lt (to_py a) (to_py b) = num_lt a b.
Proof. by destruct a, b. Qed.

Lemma py_add_to_py a b :
  is_fin a → is_fin b → Py.add (to_py a) (to_py b) = Some (to_py (num_add a b)).
Proof. by destruct a, b. Qed.

Lemma py_entry_to_py dm i j :
  Py.entry (to_py_matrix dm) i j = to_py <$> entry dm i j.
Proof.
  unfold Py.entry, entry, to_py_matrix. rewrite list_lookup_fmap.
  destruct (dm !! i) as [row|]; simpl; [|done]. by rewrite list_lookup_fmap.
Qed.

Lemma py_nearest_unvisited_refines dm vis cur n :
  Py.nearest_unvisited (to_py_matrix dm) vis cur n =
  prod_map id to_py <$> nearest_unvisited dm vis cur n.
Proof.
  unfold Py.nearest_unvisited, nearest_unvisited.
  change (@None nat, Py.Float Py.inf)
    with (prod_map id to_py (@None nat, Inf)).
  apply for_each_fmap. intros j [bn bd] _.
  unfold Py.scan_body, scan_body. simpl.
  destruct (vis !! j) as [[]|]; simpl; [done| |done].
  rewrite py_entry_to_py. destruct (entry dm cur j) as [d|]; simpl; [|done].
  rewrite py_lt_to_py. by destruct (num_lt d bd).
Qed.

Lemma py_walk_loop_refines dm n steps w :
  is_fin (total_distance w) →
  Py.walk_loop (to_py_matrix dm) n steps (to_py_walk w) =
  to_py_walk <$> walk_loop dm n steps w.
Proof.
  revert w. induction steps as [|steps IH]; intros w Hfin; [done|].
  simpl. destruct (last (order w)) as [cur|]; simpl; [|done].
  rewrite py_nearest_unvisited_refines.
  destruct (nearest_unvisited dm (visited w) cur n) as [[[j|] bd]|] eqn:Hscan;
    simpl; [|done..].
  destruct (set_item (visited w) j true) as [vis'|]; simpl; [|done].
  apply nearest_unvisited_spec in Hscan as (_ & _ & _ & _ & Hbd & _).
  rewrite py_add_to_py by done. simpl.
  apply (IH (Walk (order w ++ [j]) vis' (num_add (total_distance w) bd) false)).
  by apply num_add_is_fin.
Qed.

Lemma py_greedy_path_refines dm n s :
  Py.greedy_path (to_py_matrix dm) n s = to_py_walk <$> greedy_path dm n s.
Proof.
  unfold Py.greedy_path, greedy_path.
  destruct (set_item (replicate n false) s true) as [vis|]; simpl; [|done].
  by apply (py_walk_loop_refines dm n (n - 1) (Walk [s] vis (Fin 0) false)).
Qed.

(** On every matrix of integers and [inf] the two embeddings of
    [nearest_neighbor_tsp] return the same order and the same total, and
    raise on the same matrices. *)
Lemma py_nearest_neighbor_tsp_refines dm :
  Py.nearest_neighbor_tsp (to_py_matrix dm) =
  prod_map id to_py <$> nearest_neighbor_tsp dm.
Proof.
  unfold Py.nearest_neighbor_tsp, nearest_neighbor_tsp, to_py_matrix.
  rewrite length_fmap. fold (to_py_matrix dm). case_decide; [done|].
  change (@None (list nat), Py.Float Py.inf)
    with (prod_map id to_py (@None (list nat), Inf)).
  apply for_each_fmap. intros s [bo bt] _.
  unfold Py.try_start, try_start. rewrite py_greedy_path_refines.
  destruct (greedy_path dm (length dm) s) as [w|]; simpl; [|done].
  rewrite py_lt_to_py. by destruct (num_lt (total_distance w) bt).
Qed.

(** ** Floats *)

(** What Python computes: [1e308 + 1e308] is [inf], [float(10**308)] is
    [1e308], and the first integer too large for a float is
    [2**1024 - 2**970]. *)
Example py_float_facts :
  Py.add (Py.Float Py.f_1e308) (Py.Float Py.f_1e308) = Some (Py.Float Py.inf) ∧
  Py.float_of_int (10 ^ 308) = Some Py.f_1e308 ∧
  Py.float_of_int (2 ^ 1024 - 2 ^ 970) = None ∧
  Py.float_of_int (2 ^ 1024 - 2 ^ 970 - 1) =
    Some (SpecFloat.S754_finite false 9007199254740991 971) ∧
  Py.add (Py.Int (10 ^ 400)) (Py.Float Py.inf) = None ∧
  Py.lt (Py.Float Py.inf) (Py.Float Py.inf) = false ∧
  Py.lt (Py.Float (SpecFloat.S754_finite false (2 ^ 52) 1)) (Py.Int (2 ^ 53 + 1))
    = true.
Proof. split_and!; vm_compute; reflexivity. Qed.

(** The fallback on the matrix of [1e308]: every start completes its path
    of three nodes, every total is [1e308 + 1e308 = inf], no total is below
    the initial [best_total = inf], and the result is [(None, inf)]. *)
Example py_nearest_neighbor_tsp_1e308 :
  Py.greedy_path Py.dm_1e308 3 0
    = Some (Py.Walk [0; 1; 2] [true; true; true] (Py.Float Py.inf) false) ∧
  Py.greedy_path Py.dm_1e308 3 1
    = Some (Py.Walk [1; 0; 2] [true; true; true] (Py.Float Py.inf) false) ∧
  Py.greedy_path Py.dm_1e308 3 2
    = Some (Py.Walk [2; 0; 1] [true; true; true] (Py.Float Py.inf) false) ∧
  Py.nearest_neighbor_tsp Py.dm_1e308 = Some (None, Py.Float Py.inf).
Proof. split_and!; vm_compute; reflexivity. Qed.

(** The fallback on a matrix with the float [0.5] among integers of 401
    digits: from start 0 the walk goes to node 1, the total becomes the
    float [0.5], and adding the integer [10**400] to it raises
    OverflowError ("int too large to convert to float"). *)
Example py_nearest_neighbor_tsp_huge :
  Py.add (Py.Int 0) (Py.Float Py.f_half) = Some (Py.Float Py.f_half) ∧
  Py.nearest_unvisited Py.dm_huge [true; true; false] 1 3
    = Some (Some 2, Py.Int (10 ^ 400)) ∧
  Py.add (Py.Float Py.f_half) (Py.Int (10 ^ 400)) = None ∧
  Py.greedy_path Py.dm_huge 3 0 = None ∧
  Py.nearest_neighbor_tsp Py.dm_huge = None.
Proof. split_and!; vm_compute; reflexivity. Qed.



(** * The claims that floats refute *)















(** * Input that is not validated *)



(** * The fallback on integers and [inf], on both embeddings *)

(** X6.  On every square matrix with at least one row whose entries are
    integers or [inf], the fallback returns an order (never [None]) and an
    integer cost: the order is not empty, has no duplicates, stays in
    range, and its cost is the sum along it.  The order is shorter than [n]
    only when the walk got stuck: every node it leaves out is at distance
    [inf] from its last node.  The embedding on Python's numbers returns
    the same order and cost. *)
Theorem nearest_neighbor_tsp_with_inf dm :
  square dm → 1 ≤ length dm →
  ∃ o c,
    nearest_neighbor_tsp dm = Some (Some o, Fin c) ∧
    Py.nearest_neighbor_tsp (to_py_matrix dm) = Some (Some o, Py.Int c) ∧
    o ≠ [] ∧ NoDup o ∧ Forall (λ i, i < length dm) o ∧
    path_cost dm o = Some (Fin c) ∧
    (length o < length dm →
     ∃ cur, last o = Some cur ∧
            ∀ k, k < length dm → k ∉ o → entry dm cur k = Some Inf).
Proof.
  intros Hsq Hn. destruct (decide (length dm ≤ 1)) as [Hone|Hbig].
  { assert (length dm = 1) as Hlen by lia.
    exists [0], 0%Z.
    rewrite py_nearest_neighbor_tsp_refines, nearest_neighbor_tsp_small, Hlen
      by done.
    split_and!; try done.
    - apply NoDup_singleton.
    - apply Forall_singleton. lia.
    - simpl. lia. }
  destruct (nearest_neighbor_tsp_result dm Hsq) as (s & w & Hs & Hw & Hnn & _);
    [lia|].
  destruct (greedy_path_inv _ _ _ _ Hs Hw) as (Hinv & _ & Hfull).
  pose proof (inv_fin _ _ _ _ Hinv) as Hfin.
  pose proof (inv_cost _ _ _ _ Hinv) as Hcost.
  destruct (total_distance w) as [c|] eqn:Hc; [|done].
  exists (order w), c. split_and!; [done| | | | |done|].
  - by rewrite py_nearest_neighbor_tsp_refines, Hnn.
  - apply (greedy_from_nonempty _ _ _ _ (inv_greedy _ _ _ _ Hinv)).
  - apply (inv_nodup _ _ _ _ Hinv).
  - apply Forall_forall. intros k Hk.
    apply (inv_visited _ _ _ _ Hinv) in Hk. apply lookup_lt_Some in Hk.
    by rewrite (inv_length _ _ _ _ Hinv) in Hk.
  - intros Hshort.
    assert (broke w = true) as Hb.
    { destruct (broke w); [done|]. specialize (Hfull eq_refl). lia. }
    unfold greedy_path in Hw.
    rewrite set_item_Some in Hw by (by rewrite length_replicate).
    simpl in Hw.
    destruct (walk_loop_broke _ _ _ _ _ _ (walk_inv_start dm _ s Hs) Hw eq_refl Hb)
      as (cur & Hlast & Hscan).
    exists cur. split; [done|]. intros k Hk Hnot.
    apply nearest_unvisited_spec in Hscan as [Hmin _].
    assert (cur < length dm) as Hcur.
    { destruct (walk_inv_last _ _ _ _ Hinv) as (cur' & Hlast' & ?). congruence. }
    destruct (square_entry dm cur k Hsq Hcur Hk) as [d Hd]. rewrite Hd.
    f_equal. apply num_lt_Inf. apply (Hmin k d Hk); [|done].
    by apply (walk_inv_unvisited _ _ _ _ k Hinv).
Qed.

Lemma nearest_neighbor_tsp_with_inf_witness :
  ∃ o c,
    nearest_neighbor_tsp dm2_unreachable = Some (Some o, Fin c) ∧
    Py.nearest_neighbor_tsp (to_py_matrix dm2_unreachable)
      = Some (Some o, Py.Int c) ∧
    o ≠ [] ∧ NoDup o ∧ Forall (λ i, i < length dm2_unreachable) o ∧
    path_cost dm2_unreachable o = Some (Fin c) ∧
    (length o < length dm2_unreachable →
     ∃ cur, last o = Some cur ∧
            ∀ k, k < length dm2_unreachable → k ∉ o →
                 entry dm2_unreachable cur k = Some Inf).
Proof.
  apply (nearest_neighbor_tsp_with_inf dm2_unreachable).
  - repeat constructor.
  - simpl. lia.
Defined.


(** X4.  For a square matrix of integers whose off-diagonal entries all
    lie between [lo] and [hi], the total distance returned, in either
    configuration, lies between [(n - 1) * lo] and [(n - 1) * hi]; in
    particular it is not negative when no distance is. *)
Theorem total_distance_bounds (HAS_ORTOOLS : bool) engine dm (lo hi : Z) :
  square dm → finite_matrix dm → engine_sound engine →
  (∀ i j z, i < length dm → j < length dm → i ≠ j →
            entry dm i j = Some (Fin z) → (lo ≤ z ≤ hi)%Z) →
  ∃ o c,
    solve HAS_ORTOOLS engine dm = Some (Some o, Fin c) ∧
    (Z.of_nat (length dm - 1) * lo ≤ c ≤ Z.of_nat (length dm - 1) * hi)%Z ∧
    (HAS_ORTOOLS = false →
     Py.nearest_neighbor_tsp (to_py_matrix dm) = Some (Some o, Py.Int c)).
Proof.
  intros Hsq Hfin Hsound Hbound.
  destruct (solve_ok HAS_ORTOOLS engine dm Hsq Hsound)
    as (o & t & Hrun & Hcost & _ & Hperm).
  specialize (Hperm Hfin).
  destruct (perm_range_facts o _ Hperm) as (Hlen & Hnd & Hall).
  destruct (path_cost_bounds dm (length dm) lo hi o) as (c & Hc & Hlohi);
    [|done|done|].
  { intros i j Hi Hj Hne. destruct (square_entry dm i j Hsq Hi Hj) as [d Hd].
    pose proof (finite_entry _ _ _ _ Hfin Hd) as Hd'.
    destruct d as [z|]; [|done]. exists z. split; [done|]. eauto. }
  rewrite Hcost in Hc. injection Hc as ->. rewrite Hlen in Hlohi.
  destruct Hlohi as [Hlo Hhi]. exists o, c. split_and!; [done..|].
  intros ->. simpl in Hrun. by rewrite py_nearest_neighbor_tsp_refines, Hrun.
Qed.

Lemma total_distance_bounds_witness :
  ∃ o c,
    solve false no_engine dm4 = Some (Some o, Fin c) ∧
    (Z.of_nat (length dm4 - 1) * 10 ≤ c ≤ Z.of_nat (length dm4 - 1) * 35)%Z ∧
    (false = false →
     Py.nearest_neighbor_tsp (to_py_matrix dm4) = Some (Some o, Py.Int c)).
Proof.
  apply (total_distance_bounds false no_engine dm4 10 35).
  - repeat constructor.
  - repeat constructor.
  - exact no_engine_sound.
  - intros i j z Hi Hj Hne Hz. simpl in Hi, Hj.
    destruct i as [|[|[|[|i]]]]; [| | | |lia];
      (destruct j as [|[|[|[|j]]]]; [| | | |lia]);
      try done; injection Hz as <-; lia.
Defined.


(** * The fallback on matrices of floats *)

Lemma py_lt_finite_inf d :
  Py.finite_float d → Py.lt d (Py.Float Py.inf) = true.
Proof. by destruct d as [z|[s|s| |s m e]]. Qed.

Lemma py_add_float t d :
  t = Py.Int 0 ∨ Py.is_float t → Py.is_float d →
  ∃ f, Py.add t d = Some (Py.Float f).
Proof.
  intros [->|Ht] Hd; destruct d as [y|g]; try done.
  - by eexists.
  - destruct t as [x|f]; [done|]. by eexists.
Qed.

Section float_matrix.
Context (dm : Py.matrix) (n : nat).
Hypothesis offdiag :
  ∀ i j, i < n → j < n → i ≠ j →
         ∃ d, Py.entry dm i j = Some d ∧ Py.finite_float d.

Lemma py_scan_prefix vis cur m :
  cur < n → vis !! cur = Some true → length vis = n → m ≤ n →
  ∃ bn bd,
    for_each (Py.scan_body dm vis cur) (range m) (None, Py.Float Py.inf)
      = Some (bn, bd) ∧
    match bn with
    | Some j => j < m ∧ vis !! j = Some false ∧ Py.entry dm cur j = Some bd
    | None => bd = Py.Float Py.inf ∧ ∀ k, k < m → vis !! k ≠ Some false
    end.
Proof.
  intros Hcur Hvcur Hlen. induction m as [|m IH]; intros Hm.
  { exists None, (Py.Float Py.inf). split; [done|]. split; [done|lia]. }
  destruct IH as (bn & bd & Hrun & Hinv); [lia|].
  rewrite range_S, for_each_snoc, Hrun. simpl. unfold Py.scan_body. simpl.
  destruct (lookup_lt_is_Some_2 vis m) as [v Hv]; [lia|]. rewrite Hv. simpl.
  destruct v.
  - exists bn, bd. split; [done|]. destruct bn as [j|].
    + destruct Hinv as (? & ? & ?). split_and!; [lia|done|done].
    + destruct Hinv as [-> Hnone]. split; [done|]. intros k Hk.
      destruct (decide (k = m)) as [->|]; [congruence|]. apply Hnone. lia.
  - destruct (offdiag cur m) as (d & Hd & Hfin); [done|lia|congruence|].
    rewrite Hd. simpl. destruct (Py.lt d bd) eqn:Hlt.
    + exists (Some m), d. split; [done|]. split_and!; [lia|done|done].
    + exists bn, bd. split; [done|]. destruct bn as [j|].
      * destruct Hinv as (? & ? & ?). split_and!; [lia|done|done].
      * destruct Hinv as [-> _]. by rewrite py_lt_finite_inf in Hlt.
Qed.

Lemma py_walk_loop_floats steps w :
  py_walk_inv n w → length (Py.order w) + steps ≤ n →
  ∃ w', Py.walk_loop dm n steps w = Some w' ∧ py_walk_inv n w' ∧
        length (Py.order w') = length (Py.order w) + steps ∧
        (Py.broke w = false → Py.broke w' = false) ∧
        (0 < steps → Py.is_float (Py.total_distance w')).
Proof.
  revert w. induction steps as [|steps IH]; intros w Hinv Hlen.
  { exists w. split_and!; [done|done|lia|done|lia]. }
  destruct (py_inv_last _ _ Hinv) as [cur Hlast].
  assert (Py.visited w !! cur = Some true) as Hvcur.
  { apply (py_inv_visited _ _ Hinv). by apply last_Some_elem_of. }
  assert (cur < n) as Hcur.
  { apply lookup_lt_Some in Hvcur. by rewrite (py_inv_length _ _ Hinv) in Hvcur. }
  destruct (py_scan_prefix (Py.visited w) cur n Hcur Hvcur
              (py_inv_length _ _ Hinv)) as (bn & bd & Hscan & Hres); [lia|].
  simpl. rewrite Hlast. simpl. unfold Py.nearest_unvisited. rewrite Hscan.
  simpl. destruct bn as [j|].
  - destruct Hres as (Hj & Hvj & Hent).
    rewrite set_item_Some by (rewrite (py_inv_length _ _ Hinv); lia). simpl.
    destruct (offdiag cur j) as (d & Hd & Hfin); [done..|congruence|].
    assert (bd = d) as -> by congruence.
    destruct (py_add_float (Py.total_distance w) d) as [f Hadd].
    { apply (py_inv_total _ _ Hinv). }
    { by destruct d as [?|[]]. }
    rewrite Hadd. simpl.
    assert (j ∉ Py.order w) as Hnot.
    { intros Hin. apply (py_inv_visited _ _ Hinv) in Hin. congruence. }
    destruct (IH (Py.Walk (Py.order w ++ [j]) (<[j:=true]> (Py.visited w))
                    (Py.Float f) false))
      as (w' & Hrun & Hinv' & Hlen' & Hb' & Hfl').
    + split; simpl.
      * by rewrite length_insert, (py_inv_length _ _ Hinv).
      * intros k. rewrite elem_of_app, list_elem_of_singleton.
        rewrite <-(py_inv_visited _ _ Hinv).
        destruct (decide (k = j)) as [->|Hne].
        -- rewrite list_lookup_insert_eq
             by (rewrite (py_inv_length _ _ Hinv); lia).
           split; [by right|done].
        -- rewrite list_lookup_insert_ne by done.
           split; [by left|by intros [?|?]].
      * apply NoDup_app. split_and!; [apply (py_inv_nodup _ _ Hinv)| |apply NoDup_singleton].
        intros x Hx ->%list_elem_of_singleton. done.
      * rewrite last_snoc. by eexists.
      * by right.
    + simpl. rewrite length_app. simpl. lia.
    + exists w'. simpl in Hlen', Hb'. rewrite length_app in Hlen'. simpl in Hlen'.
      split_and!; [done|done|lia| |].
      * intros _. by apply Hb'.
      * intros _. destruct steps as [|steps'].
        -- simpl in Hrun. by injection Hrun as <-.
        -- apply Hfl'. lia.
  - exfalso. destruct Hres as [_ Hnone].
    destruct (fresh_index (Py.order w) n) as (k & Hk & Hnot); [lia|].
    apply (Hnone k Hk).
    destruct (lookup_lt_is_Some_2 (Py.visited w) k) as [[] Hv];
      [by rewrite (py_inv_length _ _ Hinv)| |done].
    by apply (py_inv_visited _ _ Hinv) in Hv.
Qed.

Lemma py_greedy_path_floats s :
  2 ≤ n → s < n →
  ∃ w, Py.greedy_path dm n s = Some w ∧ Py.order w ≡ₚ range n ∧
       Py.broke w = false ∧ Py.is_float (Py.total_distance w).
Proof.
  intros Hn Hs. unfold Py.greedy_path.
  rewrite set_item_Some by (by rewrite length_replicate). simpl.
  destruct (py_walk_loop_floats (n - 1)
              (Py.Walk [s] (<[s:=true]> (replicate n false)) (Py.Int 0) false))
    as (w & Hrun & Hinv & Hlen & Hb & Hfl).
  { split; simpl.
    - by rewrite length_insert, length_replicate.
    - intros j. rewrite list_elem_of_singleton.
      destruct (decide (j = s)) as [->|Hne].
      + rewrite list_lookup_insert_eq by (by rewrite length_replicate). done.
      + rewrite list_lookup_insert_ne by done. split; [|done].
        intros Hj. by apply lookup_replicate in Hj as [? _].
    - apply NoDup_singleton.
    - by eexists.
    - by left. }
  { simpl. lia. }
  exists w. simpl in Hlen, Hb. split_and!; [done| |by apply Hb|apply Hfl; lia].
  apply submseteq_length_Permutation.
  - apply NoDup_submseteq; [apply (py_inv_nodup _ _ Hinv)|].
    intros k Hk. apply elem_of_seq.
    apply (py_inv_visited _ _ Hinv) in Hk. apply lookup_lt_Some in Hk.
    rewrite (py_inv_length _ _ Hinv) in Hk. lia.
  - unfold range. rewrite length_seq. lia.
Qed.

Lemma py_starts_prefix a :
  2 ≤ n → a ≤ n →
  ∃ bo bt,
    for_each (Py.try_start dm n) (range a) (None, Py.Float Py.inf)
      = Some (bo, bt) ∧
    match bo with
    | Some o =>
        ∃ s w, s < a ∧ Py.greedy_path dm n s = Some w ∧
               o = Py.order w ∧ bt = Py.total_distance w
    | None =>
        bt = Py.Float Py.inf ∧
        ∀ s, s < a →
             ∃ w, Py.greedy_path dm n s = Some w ∧
                  Py.lt (Py.total_distance w) (Py.Float Py.inf) = false
    end.
Proof.
  intros Hn. induction a as [|a IH]; intros Ha.
  { exists None, (Py.Float Py.inf). split; [done|]. split; [done|lia]. }
  destruct IH as (bo & bt & Hrun & Hinv); [lia|].
  rewrite range_S, for_each_snoc, Hrun. simpl. unfold Py.try_start.
  destruct (py_greedy_path_floats a Hn) as (w & Hw & _); [lia|].
  rewrite Hw. simpl. destruct (Py.lt (Py.total_distance w) bt) eqn:Hlt.
  - exists (Some (Py.order w)), (Py.total_distance w). split; [done|].
    exists a, w. split_and!; [lia|done..].
  - exists bo, bt. split; [done|]. destruct bo as [o|].
    + destruct Hinv as (s & w' & ? & ? & ? & ?). exists s, w'.
      split_and!; [lia|done..].
    + destruct Hinv as [-> Hall]. split; [done|]. intros s Hs.
      destruct (decide (s = a)) as [->|]; [by exists w|]. apply Hall. lia.
Qed.
End float_matrix.

(** X11.  On every matrix with at least two rows whose off-diagonal
    entries [i][j], [i, j < n], are finite floats, the fallback does not
    raise, every start completes a path through all [n] nodes without the
    [break], and the result is either the path of some start, a permutation
    of [0..n-1], with its total, or [(None, inf)]; the latter only when no
    start's total is below [inf], every one of them having overflowed. *)
Theorem py_nearest_neighbor_tsp_floats (dm : Py.matrix) :
  2 ≤ length dm →
  (∀ i j, i < length dm → j < length dm → i ≠ j →
          ∃ d, Py.entry dm i j = Some d ∧ Py.finite_float d) →
  (∀ s, s < length dm →
        ∃ w, Py.greedy_path dm (length dm) s = Some w ∧
             Py.order w ≡ₚ range (length dm) ∧ Py.broke w = false ∧
             Py.is_float (Py.total_distance w)) ∧
  ∃ bo bt,
    Py.nearest_neighbor_tsp dm = Some (bo, bt) ∧
    match bo with
    | Some o =>
        o ≡ₚ range (length dm) ∧
        ∃ s w, s < length dm ∧ Py.greedy_path dm (length dm) s = Some w ∧
               o = Py.order w ∧ bt = Py.total_distance w
    | None =>
        bt = Py.Float Py.inf ∧
        ∀ s, s < length dm →
             ∃ w, Py.greedy_path dm (length dm) s = Some w ∧
                  Py.lt (Py.total_distance w) (Py.Float Py.inf) = false
    end.
Proof.
  intros Hn Hoff. split.
  { intros s Hs. by apply py_greedy_path_floats. }
  unfold Py.nearest_neighbor_tsp. rewrite decide_False by lia.
  destruct (py_starts_prefix dm (length dm) Hoff (length dm) Hn)
    as (bo & bt & Hrun & Hres); [done|].
  exists bo, bt. split; [done|]. destruct bo as [o|]; [|done].
  destruct Hres as (s & w & Hs & Hw & -> & ->). split; [|by exists s, w].
  destruct (py_greedy_path_floats dm (length dm) Hoff s Hn Hs)
    as (w' & Hw' & Hperm & _).
  by assert (w' = w) as <- by congruence.
Qed.

Lemma py_nearest_neighbor_tsp_floats_witness :
  (∀ s, s < length Py.dm_1e308 →
        ∃ w, Py.greedy_path Py.dm_1e308 (length Py.dm_1e308) s = Some w ∧
             Py.order w ≡ₚ range (length Py.dm_1e308) ∧ Py.broke w = false ∧
             Py.is_float (Py.total_distance w)) ∧
  ∃ bo bt,
    Py.nearest_neighbor_tsp Py.dm_1e308 = Some (bo, bt) ∧
    match bo with
    | Some o =>
        o ≡ₚ range (length Py.dm_1e308) ∧
        ∃ s w, s < length Py.dm_1e308 ∧
               Py.greedy_path Py.dm_1e308 (length Py.dm_1e308) s = Some w ∧
               o = Py.order w ∧ bt = Py.total_distance w
    | None =>
        bt = Py.Float Py.inf ∧
        ∀ s, s < length Py.dm_1e308 →
             ∃ w, Py.greedy_path Py.dm_1e308 (length Py.dm_1e308) s = Some w ∧
                  Py.lt (Py.total_distance w) (Py.Float Py.inf) = false
    end.
Proof.
  apply (py_nearest_neighbor_tsp_floats Py.dm_1e308).
  - simpl. lia.
  - intros i j Hi Hj Hne. simpl in Hi, Hj.
    destruct i as [|[|[|i]]]; [| | |lia];
      (destruct j as [|[|[|j]]]; [| | |lia]);
      try done; by eexists.
Defined.
